(** * mpvctrl: the command multiplexer of [mpvctrl.go]

    A shallow embedding of [MPVClient] (the pending-command table [i2c], the
    [sync.WaitGroup] counter [wg], the identifier generator [rd] and the
    buffered connection [rw]/[nc]) with its three operations [sendCommand],
    [inputMonitor] and [Close], followed by the properties of the
    multiplexing layer.

    Byte slices are [string]s (lists of 8-bit characters).  [uint32] values
    are integers in [0, 2^32) with the wrap-around of the conversion written
    out.  Channels live in a heap indexed by allocation order; the goroutine
    that [inputMonitor] starts for every matched response is a record with a
    program counter.  The library calls whose code is outside this repository
    ([bufio], [math/rand], [jsonparser]) are interfaces (type classes); what
    the peer sends, that is what each [ReadBytes] of the reader loop returns,
    and the result of [nc.Close] are inputs of the model. *)

From Stdlib Require Import ZArith String Ascii List DecimalString DecimalN Lia.
From stdpp Require Import base option list finite gmap strings.

Open Scope string_scope.
Open Scope Z_scope.

(** ** Bytes, errors and text formatting *)

Abbreviation bytes := string (only parsing).

(** Go [error] values.  [EOF] is [io.EOF] and [KeyPathNotFoundError] is
    [jsonparser.KeyPathNotFoundError]; the code compares against both by
    identity.  [nil] is [None] of [option error]. *)
Inductive error : Type :=
| EOF
| KeyPathNotFoundError
| Err (msg : string).

#[global] Instance error_eq_dec : EqDecision error.
Proof. solve_decision. Defined.

(** [err.Error()] *)
Definition Error (e : error) : string :=
  match e with
  | EOF => "EOF"
  | KeyPathNotFoundError => "Key path not found"
  | Err msg => msg
  end.

(** The double quote and the newline, and a helper that lets the JSON
    templates below be written with single quotes. *)
Definition dquote : ascii := "034"%char.
Definition newline : ascii := "010"%char.

Fixpoint dq (s : string) : string :=
  match s with
  | EmptyString => EmptyString
  | String c r => String (if Ascii.eqb c "'"%char then dquote else c) (dq r)
  end.

(** [%d] of an unsigned value. *)
Definition decimal (n : Z) : string :=
  NilZero.string_of_uint (N.to_uint (Z.to_N n)).

(** The conversion [uint32(x)] of an [int64]: the low 32 bits. *)
Definition uint32 (x : Z) : Z := x `mod` 2 ^ 32.

(** ** The command templates (mpvctrl.go, lines 24-40) *)

Definition JPC_PAUSE_ON : bytes := dq "{'command': ['set_property', 'pause', true]".
Definition JPC_PAUSE_OFF : bytes := dq "{'command': ['set_property', 'pause', false]".
Definition JPC_PAUSE_TOGGLE_ : bytes := dq "{'command': ['cycle', 'pause']".
Definition JPC_OSC_OFF : bytes := dq "{'command': ['script-message', 'osc-visibility', 'never']".
Definition JPC_OSC_ON : bytes := dq "{'command': ['script-message', 'osc-visibility', 'always']".
Definition JPC_PLAYLIST_PREV : bytes := dq "{'command': ['playlist-prev']".
Definition JPC_PLAYLIST_NEXT : bytes := dq "{'command': ['playlist-next']".
Definition JPC_CHAPTER_PREV : bytes := dq "{'command': ['add', 'chapter', -1]".
Definition JPC_CHAPTER_NEXT : bytes := dq "{'command': ['add', 'chapter', 1]".
Definition JPC_PRESS_LEFT : bytes := dq "{'command': ['keypress', 'LEFT']".
Definition JPC_PRESS_RIGHT : bytes := dq "{'command': ['keypress', 'RIGHT']".

(** [fmt.Sprintf("%s, \"request_id\": %d}\n", cmd, msgID)] (line 112) *)
Definition ncmd (cmd : bytes) (msgID : Z) : bytes :=
  cmd ++ dq ", 'request_id': " ++ decimal msgID ++ "}" ++ String newline EmptyString.

(** The eleven templates of the [var] block. *)
Definition templates : list bytes :=
  [JPC_PAUSE_ON; JPC_PAUSE_OFF; JPC_PAUSE_TOGGLE_; JPC_OSC_OFF; JPC_OSC_ON;
   JPC_PLAYLIST_PREV; JPC_PLAYLIST_NEXT; JPC_CHAPTER_PREV; JPC_CHAPTER_NEXT;
   JPC_PRESS_LEFT; JPC_PRESS_RIGHT].

(** Number of newline characters of a byte string, its last character, and
    whether a character is a decimal digit. *)
Fixpoint newlines (s : string) : nat :=
  match s with
  | EmptyString => O
  | String c r => ((if Ascii.eqb c newline then 1 else 0) + newlines r)%nat
  end.

Fixpoint last_char (s : string) : option ascii :=
  match s with
  | EmptyString => None
  | String c EmptyString => Some c
  | String _ r => last_char r
  end.

Definition isdigit (c : ascii) : bool :=
  (48 <=? Z.of_nat (nat_of_ascii c)) && (Z.of_nat (nat_of_ascii c) <=? 57).

Fixpoint all_digits (s : string) : bool :=
  match s with
  | EmptyString => true
  | String c r => isdigit c && all_digits r
  end.

(** Reading a decimal back. *)
Definition read_decimal (s : string) : Z :=
  Z.of_N (N.of_uint (default Decimal.Nil (NilEmpty.uint_of_string s))).

(** The text of [log.Printf("We got event ( %s ): %s", ename, string(dbt))]
    (line 98). *)
Definition event_message (ename : string) (dbt : bytes) : string :=
  "We got event ( " ++ ename ++ " ): " ++ dbt.

(** ** The libraries the client is built on *)

(** The write side of [mc.rw] (a [bufio.ReadWriter] over the pipe): [Write]
    and [Flush] return the error of the call and the connection after it. *)
Class Transport (T : Type) : Type := {
  Write : bytes → T → option error * T;
  Flush : T → option error * T
}.

(** [math/rand]: a source seeded by [NewSource] and the [Uint32] draw of the
    [rand.Rand] built on it.  The result is a [uint32]. *)
Class Source (R : Type) : Type := {
  NewSource : Z → R;
  Uint32 : R → Z * R;
  Uint32_range : ∀ r, 0 ≤ (Uint32 r).1 < 2 ^ 32
}.

(** [jsonparser.GetString] and [jsonparser.GetInt] on one key: the value and
    the error of the call. *)
Class Parser : Type := {
  GetString : bytes → string → string * option error;
  GetInt : bytes → string → Z * option error
}.

(** ** Channels and goroutines *)

Abbreviation chan := nat (only parsing).

(** An unbuffered [chan []byte]: the values its receivers got so far, and
    whether it has been closed. *)
Record channel : Type := mkChannel {
  received : list bytes;
  closed : bool
}.

(** [make(chan []byte)] *)
Definition make_chan : channel := mkChannel [] false.

(** The goroutine of lines 89-92, [go func(msg []byte) { ch <- msg; close(ch) }(dbt)]. *)
Inductive gpc : Type := AtSend | AtClose | Finished.

Record goroutine : Type := mkGo {
  g_ch : chan;
  g_msg : bytes;
  g_pc : gpc
}.

(** ** The process *)

Inductive conn_state : Type := ConnOpen | ConnClosed.

(** [Running], or stopped by [log.Fatal] ([Exited]) or by a panic. *)
Inductive status : Type :=
| Running
| Exited (msg : string)
| Panicked (msg : string).

Inductive reader_pc : Type := ReaderRunning | ReaderExited.

(** Where the caller of [Close] is: not in the call, blocked in [wg.Wait],
    between [wg.Wait] and [nc.Close], or returned with the result of
    [nc.Close]. *)
Inductive closer_pc : Type :=
| NotCalled
| InWait
| PastWait
| Returned (err : option error).

#[global] Instance status_eq_dec : EqDecision status.
Proof. solve_decision. Defined.
#[global] Instance reader_pc_eq_dec : EqDecision reader_pc.
Proof. solve_decision. Defined.
#[global] Instance closer_pc_eq_dec : EqDecision closer_pc.
Proof. solve_decision. Defined.
#[global] Instance conn_state_eq_dec : EqDecision conn_state.
Proof. solve_decision. Defined.
#[global] Instance gpc_eq_dec : EqDecision gpc.
Proof. solve_decision. Defined.

Section Client.

Context {T : Type} {transport : Transport T} {R : Type} {source : Source R}
        {parser : Parser}.

(** [type MPVClient struct] (lines 42-51).  [nc] keeps whether [nc.Close] has
    been called; [i2cMtx] is not a field here: the code it guards runs as one
    step of the process below. *)
Record MPVClient : Type := mkClient {
  nc : conn_state;
  rw : T;
  wg : Z;
  rd : R;
  i2c : gmap Z chan
}.

(** The client with what the Go runtime holds around it: the channels made
    so far, the delivery goroutines started so far, the lines written by
    [log], the state of the process, of the reader loop and of [Close]. *)
Record World : Type := mkWorld {
  mc : MPVClient;
  heap : list channel;
  gos : list goroutine;
  logs : list string;
  halt : status;
  reader : reader_pc;
  closer : closer_pc
}.

Definition set_mc (c : MPVClient) (w : World) : World :=
  mkWorld c (heap w) (gos w) (logs w) (halt w) (reader w) (closer w).
Definition set_heap (h : list channel) (w : World) : World :=
  mkWorld (mc w) h (gos w) (logs w) (halt w) (reader w) (closer w).
Definition set_gos (g : list goroutine) (w : World) : World :=
  mkWorld (mc w) (heap w) g (logs w) (halt w) (reader w) (closer w).
Definition set_halt (s : status) (w : World) : World :=
  mkWorld (mc w) (heap w) (gos w) (logs w) s (reader w) (closer w).
Definition set_reader (r : reader_pc) (w : World) : World :=
  mkWorld (mc w) (heap w) (gos w) (logs w) (halt w) r (closer w).
Definition set_closer (p : closer_pc) (w : World) : World :=
  mkWorld (mc w) (heap w) (gos w) (logs w) (halt w) (reader w) p.

(** [log.Println] / [log.Printf]: one more line of log. *)
Definition log_print (msg : string) (w : World) : World :=
  mkWorld (mc w) (heap w) (gos w) (logs w ++ [msg]) (halt w) (reader w) (closer w).

(** [log.Fatal]: print, then [os.Exit(1)]. *)
Definition log_Fatal (msg : string) (w : World) : World :=
  set_halt (Exited msg) (log_print msg w).

(** [mc.wg.Add(1)] and [mc.wg.Done()]; a counter that goes negative panics. *)
Definition wg_Add (delta : Z) (w : World) : World :=
  let c := mc w in
  let w1 := set_mc (mkClient (nc c) (rw c) (wg c + delta) (rd c) (i2c c)) w in
  if wg c + delta <? 0 then set_halt (Panicked "sync: negative WaitGroup counter") w1
  else w1.

Definition wg_Done (w : World) : World := wg_Add (-1) w.

(** ** sendCommand (lines 104-125) *)

Definition sendCommand (cmd : bytes) (w : World) : (option chan * option error) * World :=
  let c := mc w in
  let '(msgID, rd1) := Uint32 (rd c) in
  let '(werr, rw1) := Write (ncmd cmd msgID) (rw c) in
  match werr with
  | Some err => ((None, Some err), set_mc (mkClient (nc c) rw1 (wg c) rd1 (i2c c)) w)
  | None =>
    let '(ferr, rw2) := Flush rw1 in
    match ferr with
    | Some err => ((None, Some err), set_mc (mkClient (nc c) rw2 (wg c) rd1 (i2c c)) w)
    | None =>
      (* mc.i2c[msgID] = make(chan []byte) *)
      let ch := length (heap w) in
      let i2c1 := <[msgID := ch]> (i2c c) in
      let w1 := set_heap (heap w ++ [make_chan])
                  (set_mc (mkClient (nc c) rw2 (wg c) rd1 i2c1) w) in
      (* mc.wg.Add(1); return mc.i2c[msgID], nil *)
      ((i2c1 !! msgID, None), wg_Add 1 w1)
    end
  end.

(** The exported commands (lines 128-140). *)
Definition PauseToggle := sendCommand JPC_PAUSE_TOGGLE_.
Definition OSCOff := sendCommand JPC_OSC_OFF.
Definition OSCOn := sendCommand JPC_OSC_ON.
Definition PlaylistPrev := sendCommand JPC_PLAYLIST_PREV.
Definition PlaylistNext := sendCommand JPC_PLAYLIST_NEXT.
Definition ChapterPrev := sendCommand JPC_CHAPTER_PREV.
Definition ChapterNext := sendCommand JPC_CHAPTER_NEXT.
Definition PressLeft := sendCommand JPC_PRESS_LEFT.
Definition PressRight := sendCommand JPC_PRESS_RIGHT.

(** ** inputMonitor (lines 59-101) *)

(** One pass through the body of the [for] loop, [dbt] and [rerr] being what
    [mc.rw.ReadBytes] returned.  The lookup and the [go] statement run under
    [i2cMtx]; [wg.Done] follows the unlock and is taken here as part of the
    same step. *)
Definition iteration (dbt : bytes) (rerr : option error) (w : World) : World :=
  match rerr with
  | Some err =>
    (* log unless io.EOF, then break *)
    set_reader ReaderExited
      (if decide (err = EOF) then w else log_print (Error err) w)
  | None =>
    let '(ename, err) := GetString dbt "event" in
    match err with
    | Some e =>
      if decide (e = KeyPathNotFoundError) then
        let '(msgID, err2) := GetInt dbt "request_id" in
        match err2 with
        | Some e2 => log_Fatal (Error e2) w
        | None =>
          match i2c (mc w) !! uint32 msgID with
          | None => log_Fatal "We haven't seen this ID before!" w
          | Some ch =>
            wg_Done (set_gos (gos w ++ [mkGo ch dbt AtSend]) w)
          end
        end
      else log_Fatal (Error e) w
    | None => log_print (event_message ename dbt) w
    end
  end.

(** The loop, over the successive results of [ReadBytes]. *)
Fixpoint inputMonitor (reads : list (bytes * option error)) (w : World) : World :=
  match reads with
  | [] => w
  | (dbt, rerr) :: rest =>
    if decide (halt w = Running ∧ reader w = ReaderRunning)
    then inputMonitor rest (iteration dbt rerr w)
    else w
  end.

(** ** Close (lines 53-57) and NewMPVClient (lines 142-157) *)

(** [mc.wg.Wait()] returns only when the counter is zero. *)
Definition wg_Wait (w : World) : option World :=
  if decide (wg (mc w) = 0) then Some w else None.

(** [mc.nc.Close()], [err] being its result. *)
Definition nc_Close (err : option error) (w : World) : option error * World :=
  let c := mc w in
  (err, set_mc (mkClient ConnClosed (rw c) (wg c) (rd c) (i2c c)) w).

(** [Close]: wait, then close the connection.  [None] while the wait
    blocks. *)
Definition Close (err : option error) (w : World) : option (option error * World) :=
  nc_Close err <$> wg_Wait w.

(** The client right after a successful [NewMPVClient]: generator seeded
    with 0, empty table, reader loop started. *)
Definition init (conn : T) : World :=
  mkWorld (mkClient ConnOpen conn 0 (NewSource 0) ∅) [] [] [] Running ReaderRunning NotCalled.

(** [dial] is the result of [winio.DialPipe]. *)
Definition NewMPVClient (dial : T + error) : World + error :=
  match dial with
  | inl conn => inl (init conn)
  | inr err => inr err
  end.

(** ** The process as a transition system

    Callers of [sendCommand], the reader loop, the delivery goroutines and
    the caller of [Close] run concurrently.  A label is one atomic step of
    one of them; [step] is [None] when that step cannot be taken (the process
    has stopped, the thread is not at that point, or it is blocked). *)
Inductive label : Type :=
| LSend (cmd : bytes)                       (* a caller runs sendCommand *)
| LRead (dbt : bytes) (rerr : option error) (* ReadBytes returns; one loop pass *)
| LGoSend (g : nat)                         (* goroutine g: ch <- msg, received *)
| LGoClose (g : nat)                        (* goroutine g: close(ch) *)
| LCloseCall                                (* Close is called *)
| LWaitReturn                               (* its wg.Wait returns *)
| LNcClose (err : option error).            (* its nc.Close returns err *)

Definition go_send (g : nat) (w : World) : option World :=
  match gos w !! g with
  | Some (mkGo ch msg AtSend) =>
    match heap w !! ch with
    | Some c =>
      if closed c then Some (set_halt (Panicked "send on closed channel") w)
      else Some (set_gos (<[g := mkGo ch msg AtClose]> (gos w))
                   (set_heap (<[ch := mkChannel (received c ++ [msg]) false]> (heap w)) w))
    | None => None
    end
  | _ => None
  end.

Definition go_close (g : nat) (w : World) : option World :=
  match gos w !! g with
  | Some (mkGo ch msg AtClose) =>
    match heap w !! ch with
    | Some c =>
      if closed c then Some (set_halt (Panicked "close of closed channel") w)
      else Some (set_gos (<[g := mkGo ch msg Finished]> (gos w))
                   (set_heap (<[ch := mkChannel (received c) true]> (heap w)) w))
    | None => None
    end
  | _ => None
  end.

Definition step (w : World) (l : label) : option World :=
  if decide (halt w = Running) then
    match l with
    | LSend cmd => Some (sendCommand cmd w).2
    | LRead dbt rerr =>
      if decide (reader w = ReaderRunning) then Some (iteration dbt rerr w) else None
    | LGoSend g => go_send g w
    | LGoClose g => go_close g w
    | LCloseCall =>
      if decide (closer w = NotCalled) then Some (set_closer InWait w) else None
    | LWaitReturn =>
      if decide (closer w = InWait) then set_closer PastWait <$> wg_Wait w else None
    | LNcClose err =>
      if decide (closer w = PastWait)
      then let '(e, w1) := nc_Close err w in Some (set_closer (Returned e) w1)
      else None
    end
  else None.

Fixpoint exec (w : World) (tr : list label) : option World :=
  match tr with
  | [] => Some w
  | l :: tr' =>
    match step w l with
    | Some w' => exec w' tr'
    | None => None
    end
  end.

(** The number of [sendCommand] calls of a trace. *)
Fixpoint sends (tr : list label) : nat :=
  match tr with
  | [] => O
  | LSend _ :: tr' => S (sends tr')
  | _ :: tr' => sends tr'
  end.

(** The generator after [k] draws, and the [k]-th identifier (from 0) drawn
    from a generator. *)
Fixpoint advance (k : nat) (r : R) : R :=
  match k with
  | O => r
  | S k' => advance k' (Uint32 r).2
  end.

Definition nth_id (r : R) (k : nat) : Z := (Uint32 (advance k r)).1.

(** The identifier the next [sendCommand] assigns. *)
Definition next_id (w : World) : Z := (Uint32 (rd (mc w))).1.

(** The first [k] identifiers drawn from a generator. *)
Definition draws (r : R) (k : nat) : list Z := nth_id r <$> seq 0 k.

(** ** Commands and their table entries

    Every successful [sendCommand] makes one channel, so a channel of the
    heap stands for the command it was made for.  The command has been
    answered ([resolved]) once the reader loop has started a delivery
    goroutine for its channel; until then it is [awaiting] its response.  It
    is [registered] while some identifier of the table holds its channel. *)
Definition resolved (w : World) (ch : chan) : Prop :=
  Exists (λ g, g_ch g = ch) (gos w).

Definition awaiting (w : World) (ch : chan) : Prop :=
  (ch < length (heap w))%nat ∧ ¬ resolved w ch.

Definition registered (w : World) (ch : chan) : Prop :=
  ch ∈ (map_img (i2c (mc w)) : gset nat).

#[global] Instance resolved_dec w ch : Decision (resolved w ch).
Proof. unfold resolved. apply _. Defined.
#[global] Instance awaiting_dec w ch : Decision (awaiting w ch).
Proof. unfold awaiting. apply _. Defined.
#[global] Instance registered_dec w ch : Decision (registered w ch).
Proof. unfold registered. apply _. Defined.

(** The table holds exactly the commands that await a response, each under
    one identifier. *)
Definition table_exact (w : World) : Prop :=
  (∀ id ch, i2c (mc w) !! id = Some ch → awaiting w ch)
  ∧ (∀ ch, awaiting w ch → registered w ch)
  ∧ (∀ id1 id2 ch,
       i2c (mc w) !! id1 = Some ch → i2c (mc w) !! id2 = Some ch → id1 = id2).

(** The channel and the line of every delivery goroutine started so far. *)
Definition deliveries (w : World) : list (chan * bytes) :=
  (λ g, (g_ch g, g_msg g)) <$> gos w.

End Client.

Arguments MPVClient : clear implicits.
Arguments World : clear implicits.

(** ** Stand-ins for the pipe, the generator and the parser

    Small executable instances of the three interfaces, used to run the
    client on concrete scenarios. *)
Module Sim.

(** An in-memory pipe: what is buffered, what reached the peer, and the
    error (if any) that its [Write] and its [Flush] return. *)
Record pipe : Type := mkPipe {
  wbuf : bytes;
  wire : bytes;
  wfail : option error;
  ffail : option error
}.

Definition pipe_ok : pipe := mkPipe "" "" None None.
Definition pipe_write_broken : pipe := mkPipe "" "" (Some (Err "write: broken pipe")) None.
Definition pipe_flush_broken : pipe := mkPipe "" "" None (Some (Err "flush: broken pipe")).

#[global] Instance pipe_transport : Transport pipe := {
  Write b p :=
    match wfail p with
    | Some e => (Some e, p)
    | None => (None, mkPipe (wbuf p ++ b) (wire p) (wfail p) (ffail p))
    end;
  Flush p :=
    match ffail p with
    | Some e => (Some e, p)
    | None => (None, mkPipe "" (wire p ++ wbuf p) (wfail p) (ffail p))
    end
}.

(** A generator that replays a script of draws (and then zeros), whatever
    the seed.  The script is part of the type of its state, which tells the
    clients of different scenarios apart. *)
Inductive replay_state (script : list Z) : Type :=
| Remaining (rest : list Z).
Arguments Remaining {script} rest.

Definition replay_draw {script} (s : replay_state script) : Z * replay_state script :=
  match s with
  | Remaining [] => (0, Remaining [])
  | Remaining (x :: rest) => (uint32 x, Remaining rest)
  end.

Lemma replay_draw_range {script} (s : replay_state script) :
  0 ≤ (replay_draw s).1 < 2 ^ 32.
Proof.
  destruct s as [[|x rest]]; simpl; [lia|].
  unfold uint32. apply Z.mod_pos_bound. lia.
Qed.

#[global] Instance replay (script : list Z) : Source (replay_state script) :=
  {| NewSource := λ _, Remaining script;
     Uint32 := replay_draw;
     Uint32_range := replay_draw_range |}.

(** A field scanner for the flat objects of the protocol: the value of a key
    is what follows the first ["key"], a colon and blanks. *)
Fixpoint strip_prefix (p s : string) : option string :=
  match p, s with
  | EmptyString, _ => Some s
  | String a p', String b s' => if Ascii.eqb a b then strip_prefix p' s' else None
  | String _ _, EmptyString => None
  end.

Fixpoint find_after (p s : string) : option string :=
  match strip_prefix p s with
  | Some r => Some r
  | None =>
    match s with
    | EmptyString => None
    | String _ s' => find_after p s'
    end
  end.

Fixpoint skip_blanks (s : string) : string :=
  match s with
  | String c s' => if Ascii.eqb c " "%char then skip_blanks s' else s
  | EmptyString => s
  end.

Definition field (line key : string) : option string :=
  match find_after (String dquote key ++ String dquote EmptyString) line with
  | Some r =>
    match skip_blanks r with
    | String c v => if Ascii.eqb c ":"%char then Some (skip_blanks v) else None
    | EmptyString => None
    end
  | None => None
  end.

Fixpoint until_quote (s : string) : option string :=
  match s with
  | EmptyString => None
  | String c s' =>
    if Ascii.eqb c dquote then Some EmptyString
    else String c <$> until_quote s'
  end.

Definition digit (c : ascii) : option Z :=
  let n := Z.of_nat (nat_of_ascii c) in
  if (48 <=? n) && (n <=? 57) then Some (n - 48) else None.

Fixpoint digits (acc : Z) (s : string) : Z :=
  match s with
  | String c s' =>
    match digit c with
    | Some d => digits (10 * acc + d) s'
    | None => acc
    end
  | EmptyString => acc
  end.

Definition scan_string (line key : string) : string * option error :=
  match field line key with
  | None => ("", Some KeyPathNotFoundError)
  | Some (String c v) =>
    if Ascii.eqb c dquote then
      match until_quote v with
      | Some str => (str, None)
      | None => ("", Some (Err "Value is string, but can't find closing quote"))
      end
    else ("", Some (Err "Value is not a string"))
  | Some EmptyString => ("", Some (Err "Malformed JSON error"))
  end.

Definition scan_int (line key : string) : Z * option error :=
  match field line key with
  | None => (0, Some KeyPathNotFoundError)
  | Some (String c v) =>
    if Ascii.eqb c "-"%char then
      match v with
      | String d _ => if digit d is Some _ then (- digits 0 v, None)
                      else (0, Some (Err "Value is not a number"))
      | EmptyString => (0, Some (Err "Value is not a number"))
      end
    else if digit c is Some _ then (digits 0 (String c v), None)
    else (0, Some (Err "Value is not a number"))
  | Some EmptyString => (0, Some (Err "Malformed JSON error"))
  end.

#[global] Instance scan_parser : Parser := {
  GetString := scan_string;
  GetInt := scan_int
}.

(** The lines of the scenarios. *)
Definition reply7 : bytes := dq "{'request_id': 7, 'error': 'success'}" ++ String newline EmptyString.
Definition reply3 : bytes := dq "{'request_id': 3, 'error': 'success'}" ++ String newline EmptyString.
Definition reply9 : bytes := dq "{'request_id': 9, 'error': 'success'}" ++ String newline EmptyString.
(** A response whose identifier is 7 + 2^32. *)
Definition reply7_wrapped : bytes :=
  dq "{'request_id': 4294967303, 'error': 'success'}" ++ String newline EmptyString.
Definition event_pause : bytes := dq "{'event': 'pause'}" ++ String newline EmptyString.

(** A client on a working pipe whose generator draws [script]. *)
Definition client (script : list Z) : World pipe (replay_state script) :=
  init pipe_ok.

(** The same on a pipe whose [Flush] fails. *)
Definition client_flush_broken (script : list Z) : World pipe (replay_state script) :=
  init pipe_flush_broken.

(** A connection that never fails: all that is written reaches the peer at
    once. *)
Inductive reliable : Type := Reliable (sent : bytes).

#[global] Instance reliable_transport : Transport reliable := {
  Write b t := let 'Reliable sent := t in (None, Reliable (sent ++ b));
  Flush t := (None, t)
}.

(** The client with pause-toggle sent under identifier 7 and not answered. *)
Definition pause_pending : World pipe (replay_state [7]) :=
  (PauseToggle (client [7])).2.

End Sim.

(** Runs a trace on a concrete world and names the world it ends in. *)
Ltac name_run w He :=
  match goal with
  | |- ∃ _, exec ?c ?tr = Some _ ∧ _ =>
    let v := eval vm_compute in (exec c tr) in
    match v with
    | Some ?x =>
      exists x; set (w := x);
      assert (He : exec c tr = Some w) by (vm_compute; reflexivity);
      split; [exact He|]
    end
  end.

(** * Properties *)

Section Properties.

Context {T : Type} {transport : Transport T} {R : Type} {source : Source R}
        {parser : Parser}.

Implicit Types (w : World T R) (cmd dbt : bytes) (tr : list label).

(** ** sendCommand *)

Lemma sendCommand_unfold cmd w :
  sendCommand cmd w =
  let c := mc w in
  let id := next_id w in
  let rd1 := (Uint32 (rd c)).2 in
  let wr := Write (ncmd cmd id) (rw c) in
  match wr.1 with
  | Some err => ((None, Some err), set_mc (mkClient (nc c) wr.2 (wg c) rd1 (i2c c)) w)
  | None =>
    let fl := Flush wr.2 in
    match fl.1 with
    | Some err => ((None, Some err), set_mc (mkClient (nc c) fl.2 (wg c) rd1 (i2c c)) w)
    | None =>
      ((<[id := length (heap w)]> (i2c c) !! id, None),
       wg_Add 1 (set_heap (heap w ++ [make_chan])
                   (set_mc (mkClient (nc c) fl.2 (wg c) rd1
                              (<[id := length (heap w)]> (i2c c))) w)))
    end
  end.
Proof.
  unfold sendCommand, next_id. cbv zeta.
  destruct (Uint32 (rd (mc w))) as [id rd1]; simpl.
  destruct (Write (ncmd cmd id) (rw (mc w))) as [[e|] rw1]; simpl; [done|].
  destruct (Flush rw1) as [[e|] rw2]; simpl; done.
Qed.

Lemma wg_Add_fields delta w :
  mc (wg_Add delta w) =
    mkClient (nc (mc w)) (rw (mc w)) (wg (mc w) + delta) (rd (mc w)) (i2c (mc w))
  ∧ heap (wg_Add delta w) = heap w ∧ gos (wg_Add delta w) = gos w
  ∧ logs (wg_Add delta w) = logs w ∧ reader (wg_Add delta w) = reader w
  ∧ closer (wg_Add delta w) = closer w
  ∧ halt (wg_Add delta w) =
      if wg (mc w) + delta <? 0 then Panicked "sync: negative WaitGroup counter"
      else halt w.
Proof. unfold wg_Add. destruct (wg (mc w) + delta <? 0); simpl; done. Qed.

(** C9. The line handed to the connection by [sendCommand] is the template
    followed by [, "request_id": <id>}] and a newline, [<id>] being the
    identifier drawn for the call: the connection after the call is the one
    after [Write] of that line (and [Flush], when the write succeeded).  For
    pause-toggle and identifier 7 the line is
    [{"command": ["cycle", "pause"], "request_id": 7}] and a newline. *)
Theorem sendCommand_wire_line :
  (∀ cmd w,
     let line := cmd ++ ", " ++ String dquote "request_id" ++ String dquote ": "
                     ++ decimal (next_id w) ++ "}" ++ String newline "" in
     rw (mc (sendCommand cmd w).2) =
       match Write line (rw (mc w)) with
       | (Some _, t) => t
       | (None, t) => (Flush t).2
       end)
  ∧ ncmd JPC_PAUSE_TOGGLE_ 7 =
      "{" ++ String dquote "command" ++ String dquote ": ["
          ++ String dquote "cycle" ++ String dquote ", "
          ++ String dquote "pause" ++ String dquote "], "
          ++ String dquote "request_id" ++ String dquote ": 7}"
          ++ String newline "".
Proof.
  split; [|reflexivity].
  intros cmd w line. rewrite sendCommand_unfold. cbv zeta.
  change (ncmd cmd (next_id w)) with line.
  destruct (Write line (rw (mc w))) as [[e|] t]; simpl; [done|].
  destruct (Flush t) as [[e|] t']; simpl; [done|].
  by destruct (wg_Add_fields 1 (set_heap (heap w ++ [make_chan])
       (set_mc (mkClient (nc (mc w)) t' (wg (mc w)) (Uint32 (rd (mc w))).2
          (<[next_id w := length (heap w)]> (i2c (mc w)))) w))) as [-> _].
Qed.

(** C2. When the write or the flush of a [sendCommand] call fails, the call
    returns no channel and that error; the table, the channels made so far
    and the outstanding-count are what they were, and so is the rest of the
    process except the generator, which has made its draw, and the
    connection, which keeps what the failed call left. *)
Theorem sendCommand_failure_registers_nothing cmd w err :
  let wr := Write (ncmd cmd (next_id w)) (rw (mc w)) in
  wr.1 = Some err ∨ (wr.1 = None ∧ (Flush wr.2).1 = Some err) →
  (sendCommand cmd w).1 = (None, Some err)
  ∧ i2c (mc (sendCommand cmd w).2) = i2c (mc w)
  ∧ heap (sendCommand cmd w).2 = heap w
  ∧ wg (mc (sendCommand cmd w).2) = wg (mc w)
  ∧ ∃ rw', (sendCommand cmd w).2 =
      set_mc (mkClient (nc (mc w)) rw' (wg (mc w)) (advance 1 (rd (mc w))) (i2c (mc w))) w.
Proof.
  intros wr Hfail. rewrite sendCommand_unfold. cbv zeta. fold wr.
  destruct Hfail as [Hw | [Hw Hf]]; rewrite Hw; [|rewrite Hf]; simpl;
    repeat split; eauto.
Qed.

(** A successful call, field by field. *)
Lemma sendCommand_success cmd w :
  let id := next_id w in
  let ch := length (heap w) in
  let wr := Write (ncmd cmd id) (rw (mc w)) in
  wr.1 = None → (Flush wr.2).1 = None →
  (sendCommand cmd w).1 = (Some ch, None)
  ∧ heap w !! ch = None
  ∧ heap (sendCommand cmd w).2 = (heap w ++ [make_chan])%list
  ∧ heap (sendCommand cmd w).2 !! ch = Some make_chan
  ∧ i2c (mc (sendCommand cmd w).2) = <[id := ch]> (i2c (mc w))
  ∧ i2c (mc (sendCommand cmd w).2) !! id = Some ch
  ∧ wg (mc (sendCommand cmd w).2) = wg (mc w) + 1.
Proof.
  intros id ch wr Hw Hf. rewrite sendCommand_unfold. cbv zeta.
  fold id wr. rewrite Hw, Hf. fold ch. cbn [fst snd].
  match goal with |- context [wg_Add 1 ?x] =>
    destruct (wg_Add_fields 1 x) as (Hmc & Hheap & _) end.
  rewrite Hmc, Hheap. simpl.
  rewrite lookup_insert_eq.
  repeat split; try done.
  - apply lookup_ge_None_2. unfold ch. lia.
  - unfold ch. by rewrite lookup_app_r, Nat.sub_diag by lia.
Qed.

(** C3. When the write and the flush of a [sendCommand] call succeed, a
    channel that did not exist before is made and stored in the table under
    the identifier drawn for the call, the outstanding-count grows by
    exactly one, and the channel returned is the one stored. *)
Theorem sendCommand_success_registers cmd w :
  let id := next_id w in
  let ch := length (heap w) in
  let wr := Write (ncmd cmd id) (rw (mc w)) in
  wr.1 = None → (Flush wr.2).1 = None →
  (sendCommand cmd w).1 = (Some ch, None)
  ∧ heap w !! ch = None
  ∧ heap (sendCommand cmd w).2 = (heap w ++ [make_chan])%list
  ∧ heap (sendCommand cmd w).2 !! ch = Some make_chan
  ∧ i2c (mc (sendCommand cmd w).2) = <[id := ch]> (i2c (mc w))
  ∧ i2c (mc (sendCommand cmd w).2) !! id = Some ch
  ∧ wg (mc (sendCommand cmd w).2) = wg (mc w) + 1.
Proof. apply sendCommand_success. Qed.

(** ** The reader loop, one line at a time *)

Lemma iteration_response dbt msgID w :
  (GetString dbt "event").2 = Some KeyPathNotFoundError →
  GetInt dbt "request_id" = (msgID, None) →
  iteration dbt None w =
    match i2c (mc w) !! uint32 msgID with
    | None => log_Fatal "We haven't seen this ID before!" w
    | Some ch => wg_Done (set_gos (gos w ++ [mkGo ch dbt AtSend]) w)
    end.
Proof.
  intros Hev Hid. unfold iteration.
  destruct (GetString dbt "event") as [ename err]; simpl in Hev; subst err.
  rewrite decide_True by done. by rewrite Hid.
Qed.

(** Once the process has stopped, nothing runs any more. *)
Lemma step_halted w l : halt w ≠ Running → step w l = None.
Proof. intros Hh. unfold step. by rewrite decide_False. Qed.

Lemma inputMonitor_halted reads w : halt w ≠ Running → inputMonitor reads w = w.
Proof.
  intros Hh. destruct reads as [|[dbt rerr] rest]; simpl; [done|].
  rewrite decide_False; [done|]. by intros [? _].
Qed.

(** The two steps of a delivery goroutine on an open channel. *)
Lemma go_send_ok g ch msg c w :
  gos w !! g = Some (mkGo ch msg AtSend) →
  heap w !! ch = Some c → closed c = false →
  ∃ w', go_send g w = Some w'
    ∧ gos w' = <[g := mkGo ch msg AtClose]> (gos w)
    ∧ heap w' = <[ch := mkChannel (received c ++ [msg]) false]> (heap w)
    ∧ mc w' = mc w ∧ halt w' = halt w.
Proof.
  intros Hg Hc Hopen. unfold go_send. rewrite Hg, Hc, Hopen.
  eexists. split; [done|]. done.
Qed.

Lemma go_close_ok g ch msg c w :
  gos w !! g = Some (mkGo ch msg AtClose) →
  heap w !! ch = Some c → closed c = false →
  ∃ w', go_close g w = Some w'
    ∧ gos w' = <[g := mkGo ch msg Finished]> (gos w)
    ∧ heap w' = <[ch := mkChannel (received c) true]> (heap w)
    ∧ mc w' = mc w ∧ halt w' = halt w.
Proof.
  intros Hg Hc Hopen. unfold go_close. rewrite Hg, Hc, Hopen.
  eexists. split; [done|]. done.
Qed.

(** C8. A line with an event name changes neither the table, nor the
    outstanding-count, nor any channel, and starts no delivery: all it does
    is print the event name and the line to the log. *)
Theorem notification_touches_no_command dbt ename w :
  GetString dbt "event" = (ename, None) →
  iteration dbt None w = log_print (event_message ename dbt) w
  ∧ i2c (mc (iteration dbt None w)) = i2c (mc w)
  ∧ wg (mc (iteration dbt None w)) = wg (mc w)
  ∧ heap (iteration dbt None w) = heap w
  ∧ gos (iteration dbt None w) = gos w
  ∧ logs (iteration dbt None w) = (logs w ++ [event_message ename dbt])%list
  ∧ event_message ename dbt = "We got event ( " ++ ename ++ " ): " ++ dbt.
Proof.
  intros Hev. unfold iteration. rewrite Hev. done.
Qed.

(** C1 (as the code has it). For a line without event name whose identifier
    is in the table, the loop starts a goroutine for the channel stored under
    that identifier and takes one off the outstanding-count (a count already
    at zero makes the process panic); it leaves the table as it is, so the
    identifier is still in the table afterwards, with the same channel.  If
    the count was positive and the channel is open, the goroutine hands the
    full line to the channel and then closes it. *)
Theorem response_is_delivered_entry_kept dbt msgID ch w :
  (GetString dbt "event").2 = Some KeyPathNotFoundError →
  GetInt dbt "request_id" = (msgID, None) →
  i2c (mc w) !! uint32 msgID = Some ch →
  let w1 := iteration dbt None w in
  let g := length (gos w) in
  gos w1 = (gos w ++ [mkGo ch dbt AtSend])%list
  ∧ wg (mc w1) = wg (mc w) - 1
  ∧ i2c (mc w1) = i2c (mc w)
  ∧ i2c (mc w1) !! uint32 msgID = Some ch
  ∧ heap w1 = heap w
  ∧ halt w1 = (if 0 <? wg (mc w) then halt w
               else Panicked "sync: negative WaitGroup counter")
  ∧ (halt w = Running → 0 < wg (mc w) →
     ∀ c, heap w !! ch = Some c → closed c = false →
     ∃ w3, exec w1 [LGoSend g; LGoClose g] = Some w3
       ∧ heap w3 = <[ch := mkChannel (received c ++ [dbt]) true]> (heap w)
       ∧ gos w3 = (gos w ++ [mkGo ch dbt Finished])%list
       ∧ i2c (mc w3) !! uint32 msgID = Some ch
       ∧ wg (mc w3) = wg (mc w) - 1).
Proof.
  intros Hev Hid Hch w1 g. subst w1.
  rewrite (iteration_response _ _ _ Hev Hid), Hch. unfold wg_Done.
  match goal with |- context [wg_Add (-1) ?x] =>
    destruct (wg_Add_fields (-1) x) as (Hmc & Hheap & Hgos & Hlogs & Hrd & Hcl & Hhalt);
    set (w1 := wg_Add (-1) x) in * end.
  simpl in *.
  assert (Hh : halt w1 = if 0 <? wg (mc w) then halt w
                         else Panicked "sync: negative WaitGroup counter").
  { rewrite Hhalt. destruct (Z.ltb_spec (wg (mc w) + -1) 0), (Z.ltb_spec 0 (wg (mc w)));
      try done; lia. }
  rewrite Hmc, Hheap, Hgos. simpl.
  repeat split; try done.
  intros Hrun Hpos c Hc Hopen.
  assert (Hlen : (ch < length (heap w))%nat) by by eapply lookup_lt_Some.
  rewrite (proj2 (Z.ltb_lt _ _) Hpos), Hrun in Hh.
  assert (Hg : gos w1 !! g = Some (mkGo ch dbt AtSend)).
  { rewrite Hgos. unfold g. by rewrite lookup_app_r, Nat.sub_diag by lia. }
  assert (Hc1 : heap w1 !! ch = Some c) by by rewrite Hheap.
  destruct (go_send_ok g ch dbt c w1 Hg Hc1 Hopen) as (w2 & Hs & Hg2 & Hh2 & Hm2 & Hr2).
  assert (Hgl : (g < length (gos w1))%nat) by by eapply lookup_lt_Some.
  assert (Hg2' : gos w2 !! g = Some (mkGo ch dbt AtClose)).
  { rewrite Hg2. by apply list_lookup_insert_eq. }
  assert (Hc2 : heap w2 !! ch = Some (mkChannel (received c ++ [dbt]) false)).
  { rewrite Hh2, Hheap. by apply list_lookup_insert_eq. }
  destruct (go_close_ok g ch dbt _ w2 Hg2' Hc2 eq_refl) as (w3 & Hs3 & Hg3 & Hh3 & Hm3 & Hr3).
  exists w3. split.
  { simpl. unfold step. rewrite decide_True by done. rewrite Hs.
    rewrite decide_True by (by rewrite Hr2). by rewrite Hs3. }
  rewrite Hm3, Hm2, Hmc, Hh3, Hh2, Hg3, Hg2, Hheap, Hgos. simpl.
  rewrite !list_insert_insert_eq.
  repeat split; try done.
  unfold g. by rewrite insert_app_r_alt, Nat.sub_diag by lia.
Qed.

(** C7 (as the code has it). For a line without event name whose identifier
    is not in the table, the loop calls [log.Fatal]: the message is printed
    and the process exits.  The table and the count are untouched, no later
    line is read and no other step of the process runs. *)
Theorem unknown_identifier_is_fatal dbt msgID w :
  (GetString dbt "event").2 = Some KeyPathNotFoundError →
  GetInt dbt "request_id" = (msgID, None) →
  i2c (mc w) !! uint32 msgID = None →
  let w1 := iteration dbt None w in
  halt w1 = Exited "We haven't seen this ID before!"
  ∧ logs w1 = (logs w ++ ["We haven't seen this ID before!"])%list
  ∧ mc w1 = mc w ∧ heap w1 = heap w ∧ gos w1 = gos w
  ∧ (∀ reads, inputMonitor reads w1 = w1)
  ∧ (∀ l, step w1 l = None).
Proof.
  intros Hev Hid Hch w1. subst w1.
  rewrite (iteration_response _ _ _ Hev Hid), Hch.
  do 5 (split; [done|]). split.
  - intros reads. by apply inputMonitor_halted.
  - intros l. by apply step_halted.
Qed.

(** ** Runs of the process *)

Lemma exec_app w tr1 tr2 :
  exec w (tr1 ++ tr2) = exec w tr1 ≫= λ w1, exec w1 tr2.
Proof.
  revert w. induction tr1 as [|l tr1 IH]; intros w; simpl; [done|].
  destruct (step w l) as [w'|]; simpl; [apply IH|done].
Qed.

Lemma sends_app tr1 tr2 : sends (tr1 ++ tr2) = (sends tr1 + sends tr2)%nat.
Proof.
  induction tr1 as [|l tr1 IH]; simpl; [done|]. destruct l; simpl; lia.
Qed.

Lemma advance_succ k (r : R) : advance (S k) r = (Uint32 (advance k r)).2.
Proof. revert r. induction k as [|k IH]; intros r; simpl; [done|]. apply IH. Qed.

(** What one call of [sendCommand] changes. *)
Lemma sendCommand_frame cmd w :
  let w' := (sendCommand cmd w).2 in
  nc (mc w') = nc (mc w) ∧ rd (mc w') = advance 1 (rd (mc w))
  ∧ gos w' = gos w ∧ logs w' = logs w ∧ reader w' = reader w ∧ closer w' = closer w
  ∧ ((i2c (mc w') = i2c (mc w) ∧ heap w' = heap w ∧ wg (mc w') = wg (mc w))
     ∨ (i2c (mc w') = <[next_id w := length (heap w)]> (i2c (mc w))
        ∧ heap w' = (heap w ++ [make_chan])%list
        ∧ wg (mc w') = wg (mc w) + 1)).
Proof.
  rewrite sendCommand_unfold. cbv zeta.
  destruct (Write _ _) as [[e|] t]; simpl; [by eauto 10|].
  destruct (Flush t) as [[e|] t']; simpl; [by eauto 10|].
  match goal with |- context [wg_Add 1 ?x] =>
    destruct (wg_Add_fields 1 x) as (-> & -> & -> & -> & -> & -> & _) end.
  simpl. eauto 10.
Qed.

(** What one pass of the reader loop changes. *)
Lemma iteration_frame dbt rerr w :
  let w' := iteration dbt rerr w in
  nc (mc w') = nc (mc w) ∧ rd (mc w') = rd (mc w) ∧ i2c (mc w') = i2c (mc w)
  ∧ rw (mc w') = rw (mc w) ∧ heap w' = heap w ∧ closer w' = closer w
  ∧ (wg (mc w') = wg (mc w)
     ∨ (wg (mc w') = wg (mc w) - 1 ∧ (wg (mc w) ≤ 0 → halt w' ≠ Running))).
Proof.
  unfold iteration. destruct rerr as [err|].
  { case_decide; simpl; eauto 10. }
  destruct (GetString dbt "event") as [ename [e|]]; simpl; [|eauto 10].
  case_decide; simpl; [|eauto 10].
  destruct (GetInt dbt "request_id") as [msgID [e2|]]; simpl; [eauto 10|].
  destruct (i2c (mc w) !! uint32 msgID) as [ch|]; simpl; [|eauto 10].
  unfold wg_Done.
  match goal with |- context [wg_Add (-1) ?x] =>
    destruct (wg_Add_fields (-1) x) as (-> & -> & _ & _ & _ & -> & ->) end.
  simpl. do 6 (split; [done|]). right. split; [lia|].
  intros Hle. by rewrite (proj2 (Z.ltb_lt _ _)) by lia.
Qed.

Lemma go_send_frame g w w' :
  go_send g w = Some w' →
  mc w' = mc w ∧ reader w' = reader w ∧ closer w' = closer w
  ∧ length (heap w') = length (heap w).
Proof.
  unfold go_send. intros Hs.
  destruct (gos w !! g) as [[ch msg []]|]; try done.
  destruct (heap w !! ch) as [c|]; try done.
  destruct (closed c); simplify_eq; simpl; by rewrite ?length_insert.
Qed.

Lemma go_close_frame g w w' :
  go_close g w = Some w' →
  mc w' = mc w ∧ reader w' = reader w ∧ closer w' = closer w
  ∧ length (heap w') = length (heap w).
Proof.
  unfold go_close. intros Hs.
  destruct (gos w !! g) as [[ch msg []]|]; try done.
  destruct (heap w !! ch) as [c|]; try done.
  destruct (closed c); simplify_eq; simpl; by rewrite ?length_insert.
Qed.

(** The steps of the process, read backwards. *)
Lemma step_inv w l w' :
  step w l = Some w' →
  halt w = Running ∧
  match l with
  | LSend cmd => w' = (sendCommand cmd w).2
  | LRead dbt rerr => reader w = ReaderRunning ∧ w' = iteration dbt rerr w
  | LGoSend g => go_send g w = Some w'
  | LGoClose g => go_close g w = Some w'
  | LCloseCall => closer w = NotCalled ∧ w' = set_closer InWait w
  | LWaitReturn => closer w = InWait ∧ wg (mc w) = 0 ∧ w' = set_closer PastWait w
  | LNcClose err =>
    closer w = PastWait ∧ w' = set_closer (Returned err) (nc_Close err w).2
  end.
Proof.
  unfold step. case_decide; [|done]. intros Hs. split; [done|].
  destruct l; simpl in Hs.
  - by simplify_eq.
  - case_decide; by simplify_eq.
  - done.
  - done.
  - case_decide; by simplify_eq.
  - case_decide; [|done]. unfold wg_Wait in Hs.
    case_decide; simpl in Hs; by simplify_eq.
  - case_decide; by simplify_eq.
Qed.

(** Only [sendCommand] touches the generator, and it draws once per call. *)
Lemma step_rd w l w' :
  step w l = Some w' → rd (mc w') = advance (sends [l]) (rd (mc w)).
Proof.
  intros [_ Hs]%step_inv. destruct l; simpl.
  - subst w'. apply sendCommand_frame.
  - destruct Hs as [_ ->]. apply iteration_frame.
  - apply go_send_frame in Hs as (-> & _). done.
  - apply go_close_frame in Hs as (-> & _). done.
  - by destruct Hs as [_ ->].
  - by destruct Hs as (_ & _ & ->).
  - by destruct Hs as [_ ->].
Qed.

Lemma exec_rd tr : ∀ w w',
  exec w tr = Some w' → rd (mc w') = advance (sends tr) (rd (mc w)).
Proof.
  induction tr as [|l tr IH]; intros w w' He; simpl in He; [by simplify_eq|].
  destruct (step w l) as [w1|] eqn:Hs; [|done].
  rewrite (IH _ _ He), (step_rd _ _ _ Hs).
  destruct l; simpl; done.
Qed.

(** C10. A new client's generator is seeded with the constant 0, and only
    [sendCommand] draws from it, once per call.  So whatever two clients have
    done and whatever their connections returned, once both have seen the
    same number [k] of [sendCommand] calls the next call is assigned the same
    identifier in both, the [k]-th draw of a generator seeded with 0. *)
Theorem identifiers_are_predictable (conn1 conn2 : T) tr1 tr2 w1 w2 :
  exec (init conn1) tr1 = Some w1 →
  exec (init conn2) tr2 = Some w2 →
  sends tr1 = sends tr2 →
  rd (mc (init conn1)) = NewSource 0
  ∧ rd (mc (init conn2)) = NewSource 0
  ∧ next_id w1 = nth_id (NewSource 0) (sends tr1)
  ∧ next_id w1 = next_id w2.
Proof.
  intros H1 H2 Hk. apply exec_rd in H1, H2. simpl in H1, H2.
  unfold next_id, nth_id. rewrite H1, H2, Hk. done.
Qed.

(** ** The table along a run *)

Lemma registered_iff w ch : registered w ch ↔ ∃ id, i2c (mc w) !! id = Some ch.
Proof. unfold registered. apply elem_of_map_img. Qed.

Lemma draws_succ (r : R) k : draws r (S k) = (draws r k ++ [nth_id r k])%list.
Proof. unfold draws. by rewrite seq_S, fmap_app. Qed.

Lemma draws_mono (r : R) k id : id ∈ draws r k → id ∈ draws r (S k).
Proof. rewrite draws_succ, elem_of_app. by left. Qed.

Lemma advance_one_more k (r : R) : advance 1 (advance k r) = advance (S k) r.
Proof. symmetry. apply advance_succ. Qed.

Lemma NoDup_draws_succ (r : R) k :
  NoDup (draws r (S k)) → NoDup (draws r k) ∧ nth_id r k ∉ draws r k.
Proof.
  rewrite draws_succ. intros [H1 [H2 _]]%NoDup_app. split; [done|].
  intros Hin. apply (H2 _ Hin). by apply list_elem_of_singleton.
Qed.

(** What holds of the table after [k] calls of [sendCommand]. *)
Record table_inv (w : World T R) (k : nat) : Prop := mkTableInv {
  ti_rd : rd (mc w) = advance k (NewSource 0);
  ti_range : ∀ id ch, i2c (mc w) !! id = Some ch → (ch < length (heap w))%nat;
  ti_inj : ∀ id1 id2 ch,
    i2c (mc w) !! id1 = Some ch → i2c (mc w) !! id2 = Some ch → id1 = id2;
  ti_dom : ∀ id ch, i2c (mc w) !! id = Some ch → id ∈ draws (NewSource 0) k;
  ti_all : NoDup (draws (NewSource 0) k) →
    ∀ ch, (ch < length (heap w))%nat → ∃ id, i2c (mc w) !! id = Some ch
}.

Lemma table_inv_init (conn : T) : table_inv (init conn) 0.
Proof.
  split; simpl; try done.
  intros _ ch Hch. lia.
Qed.

Lemma table_inv_frame w w' k :
  table_inv w k →
  rd (mc w') = rd (mc w) → i2c (mc w') = i2c (mc w) →
  length (heap w') = length (heap w) →
  table_inv w' k.
Proof.
  intros [Hrd Hrange Hinj Hdom Hall] Erd Ei2c Eheap.
  split; rewrite ?Erd, ?Ei2c, ?Eheap; done.
Qed.

Lemma table_inv_send cmd w k :
  table_inv w k → table_inv (sendCommand cmd w).2 (S k).
Proof.
  intros [Hrd Hrange Hinj Hdom Hall].
  assert (Hid : next_id w = nth_id (NewSource 0) k).
  { unfold next_id, nth_id. by rewrite Hrd. }
  destruct (sendCommand_frame cmd w)
    as (_ & Erd & _ & _ & _ & _ & [(Ei & Eh & _) | (Ei & Eh & _)]).
  - (* the write or the flush failed *)
    split; rewrite ?Erd, ?Ei, ?Eh.
    + by rewrite Hrd, advance_one_more.
    + done.
    + done.
    + intros id ch Hl. eapply draws_mono, Hdom, Hl.
    + intros [Hnd _]%NoDup_draws_succ. by apply Hall.
  - (* a channel was made and stored *)
    split; rewrite ?Erd, ?Ei, ?Eh, ?length_app; simpl.
    + rewrite Hrd. symmetry. apply (advance_succ k (NewSource 0)).
    + intros id ch. rewrite lookup_insert. case_decide.
      * intros [= <-]. lia.
      * intros Hl%Hrange. lia.
    + intros id1 id2 ch. rewrite !lookup_insert. repeat case_decide; subst.
      * done.
      * intros [= <-] Hl%Hrange. lia.
      * intros Hl%Hrange [= <-]. lia.
      * apply Hinj.
    + intros id ch. rewrite lookup_insert, draws_succ, <- Hid, elem_of_app.
      case_decide.
      * subst. intros _. right. by apply list_elem_of_singleton.
      * intros Hl%Hdom. by left.
    + intros [Hnd Hfresh]%NoDup_draws_succ ch Hch.
      destruct (decide (ch = length (heap w))) as [->|Hne].
      * exists (next_id w). by rewrite lookup_insert_eq.
      * destruct (Hall Hnd ch) as [id Hl]; [lia|]. exists id.
        rewrite lookup_insert_ne; [done|].
        intros Heq. apply Hfresh. rewrite <- Hid, Heq. by eapply Hdom.
Qed.

Lemma table_inv_step w l w' k :
  table_inv w k → step w l = Some w' → table_inv w' (k + sends [l]).
Proof.
  intros Hinv [_ Hs]%step_inv. destruct l; simpl; rewrite ?Nat.add_0_r.
  - subst w'. rewrite Nat.add_1_r. by apply table_inv_send.
  - destruct Hs as [_ ->].
    destruct (iteration_frame dbt rerr w) as (_ & Erd & Ei & _ & Eh & _).
    eapply table_inv_frame; eauto. by rewrite Eh.
  - apply go_send_frame in Hs as (Emc & _ & _ & Eh).
    eapply table_inv_frame; eauto; by rewrite Emc.
  - apply go_close_frame in Hs as (Emc & _ & _ & Eh).
    eapply table_inv_frame; eauto; by rewrite Emc.
  - destruct Hs as [_ ->]. by eapply table_inv_frame.
  - destruct Hs as (_ & _ & ->). by eapply table_inv_frame.
  - destruct Hs as [_ ->]. by eapply table_inv_frame.
Qed.

Lemma table_inv_exec tr : ∀ w w' k,
  table_inv w k → exec w tr = Some w' → table_inv w' (k + sends tr).
Proof.
  induction tr as [|l tr IH]; intros w w' k Hinv He; simpl in He.
  - simplify_eq. simpl. by rewrite Nat.add_0_r.
  - destruct (step w l) as [w1|] eqn:Hs; [|done].
    pose proof (IH _ _ _ (table_inv_step _ _ _ _ Hinv Hs) He) as Hinv'.
    replace (k + sends (l :: tr))%nat with (k + sends [l] + sends tr)%nat; [done|].
    destruct l; simpl; lia.
Qed.

(** A stored identifier is stored again without a look at the table: the
    command that held it is no longer in the table. *)
Lemma repeated_identifier_replaces cmd w k ch0 :
  table_inv w k →
  i2c (mc w) !! next_id w = Some ch0 →
  (Write (ncmd cmd (next_id w)) (rw (mc w))).1 = None →
  (Flush (Write (ncmd cmd (next_id w)) (rw (mc w))).2).1 = None →
  ¬ registered (sendCommand cmd w).2 ch0.
Proof.
  intros [_ Hrange Hinj _ _] Hl Hw Hf.
  destruct (sendCommand_success cmd w Hw Hf) as (_ & _ & _ & _ & Ei & _).
  rewrite registered_iff, Ei. intros [id Hid].
  rewrite lookup_insert in Hid.
  destruct (decide (next_id w = id)) as [_|Hne].
  - simplify_eq. apply Hrange in Hl. lia.
  - apply Hne. eapply Hinj; eauto.
Qed.

(** No step of the process takes an identifier out of the table. *)
Lemma step_keeps_entries w l w' id :
  step w l = Some w' → is_Some (i2c (mc w) !! id) → is_Some (i2c (mc w') !! id).
Proof.
  intros [_ Hs]%step_inv. destruct l.
  - subst w'.
    destruct (sendCommand_frame cmd w)
      as (_ & _ & _ & _ & _ & _ & [(-> & _) | (-> & _)]); [done|].
    rewrite lookup_insert. by case_decide.
  - destruct Hs as [_ ->].
    by destruct (iteration_frame dbt rerr w) as (_ & _ & -> & _).
  - by apply go_send_frame in Hs as (-> & _).
  - by apply go_close_frame in Hs as (-> & _).
  - by destruct Hs as [_ ->].
  - by destruct Hs as (_ & _ & ->).
  - by destruct Hs as [_ ->].
Qed.

(** C4 (as the code has it). In every state a client can reach, each table
    entry holds a channel made by a successful [sendCommand] and no two
    identifiers hold the same channel.  No step removes an entry, and
    [sendCommand] stores the identifier it drew without a look at the table.
    So as long as the identifiers drawn so far are pairwise distinct, every
    command sent so far, answered or not, is in the table under its own
    identifier; and when a call draws an identifier that is in the table, the
    new channel takes the entry and the command that held it is in the table
    no more. *)
Theorem table_along_a_run (conn : T) tr w :
  exec (init conn) tr = Some w →
  (∀ id ch, i2c (mc w) !! id = Some ch → (ch < length (heap w))%nat)
  ∧ (∀ id1 id2 ch,
       i2c (mc w) !! id1 = Some ch → i2c (mc w) !! id2 = Some ch → id1 = id2)
  ∧ (∀ l w' id, step w l = Some w' →
       is_Some (i2c (mc w) !! id) → is_Some (i2c (mc w') !! id))
  ∧ (NoDup (draws (NewSource 0) (sends tr)) →
       ∀ ch, (ch < length (heap w))%nat → registered w ch)
  ∧ (∀ cmd ch0,
       i2c (mc w) !! next_id w = Some ch0 →
       (Write (ncmd cmd (next_id w)) (rw (mc w))).1 = None →
       (Flush (Write (ncmd cmd (next_id w)) (rw (mc w))).2).1 = None →
       i2c (mc (sendCommand cmd w).2) !! next_id w = Some (length (heap w))
       ∧ ¬ registered (sendCommand cmd w).2 ch0).
Proof.
  intros He.
  pose proof (table_inv_exec _ _ _ _ (table_inv_init conn) He) as Hinv.
  simpl in Hinv. pose proof Hinv as [Hrd Hrange Hinj Hdom Hall].
  split; [done|]. split; [done|]. split; [|split].
  - intros l w' id. apply step_keeps_entries.
  - intros Hnd ch Hch. apply registered_iff. by apply Hall.
  - intros cmd ch0 Hl Hw Hf. split.
    + by destruct (sendCommand_success cmd w Hw Hf) as (_ & _ & _ & _ & _ & ? & _).
    + by eapply repeated_identifier_replaces.
Qed.




(** ** Close *)

Lemma exec_snoc w tr l w' :
  exec w (tr ++ [l]) = Some w' ↔ ∃ w1, exec w tr = Some w1 ∧ step w1 l = Some w'.
Proof.
  rewrite exec_app. destruct (exec w tr) as [w1|]; simpl.
  - destruct (step w1 l) as [w2|] eqn:Hs; split.
    + intros [= <-]. by exists w1.
    + intros (? & [= <-] & ?). congruence.
    + done.
    + intros (? & [= <-] & ?). congruence.
  - split; [done|]. by intros (? & ? & _).
Qed.

(** Where [Close] can be along a run, and what it has seen. *)
Record close_inv (conn : T) (tr : list label) (w : World T R) : Prop := mkCloseInv {
  ci_closed : nc (mc w) = ConnClosed ↔ ∃ e, closer w = Returned e;
  ci_waited : closer w = PastWait ∨ nc (mc w) = ConnClosed →
    ∃ tr1 tr2 w0,
      tr = (tr1 ++ LWaitReturn :: tr2)%list
      ∧ exec (init conn) tr1 = Some w0 ∧ closer w0 = InWait ∧ wg (mc w0) = 0
      ∧ (sends tr2 = O → wg (mc w) ≤ 0)
}.

Lemma close_inv_frame conn tr l w w' :
  close_inv conn tr w →
  closer w' = closer w → nc (mc w') = nc (mc w) →
  (sends [l] = O → wg (mc w') ≤ wg (mc w)) →
  close_inv conn (tr ++ [l]) w'.
Proof.
  intros [Hc Hw] Ec En Ewg. split; rewrite ?Ec, ?En; [done|].
  intros (tr1 & tr2 & w0 & -> & He & Hcl & Hz & Hle)%Hw.
  exists tr1, (tr2 ++ [l])%list, w0. rewrite <- app_assoc. simpl.
  do 4 (split; [done|]). rewrite sends_app. intros Hs.
  etrans; [apply Ewg|apply Hle]; lia.
Qed.

Lemma close_inv_exec (conn : T) tr w :
  exec (init conn) tr = Some w → close_inv conn tr w.
Proof.
  revert w. induction tr as [|l tr IH] using rev_ind; intros w He.
  { simpl in He. simplify_eq. split; simpl.
    - split; [done|]. by intros [e ?].
    - by intros [?|?]. }
  apply exec_snoc in He as (w1 & He & Hs).
  specialize (IH _ He). pose proof Hs as [_ Hl]%step_inv. destruct l.
  - subst w. destruct (sendCommand_frame cmd w1) as (En & _ & _ & _ & _ & Ec & _).
    by eapply close_inv_frame.
  - destruct Hl as [_ ->].
    destruct (iteration_frame dbt rerr w1) as (En & _ & _ & _ & _ & Ec & Ewg).
    eapply close_inv_frame; eauto. intros _. lia.
  - apply go_send_frame in Hl as (Emc & _ & Ec & _).
    eapply close_inv_frame; eauto; rewrite Emc; done.
  - apply go_close_frame in Hl as (Emc & _ & Ec & _).
    eapply close_inv_frame; eauto; rewrite Emc; done.
  - destruct Hl as [Hc ->]. destruct IH as [Hcl Hw]. split; simpl.
    + rewrite Hcl, Hc. split; by intros [e ?].
    + intros [?|Hn]; [done|]. apply Hcl in Hn as [e ?]. congruence.
  - destruct Hl as (Hc & Hz & ->). destruct IH as [Hcl Hw]. split; simpl.
    + rewrite Hcl, Hc. split; by intros [e ?].
    + intros _. exists tr, [], w1. simpl. repeat split; try done. lia.
  - destruct Hl as [Hc ->]. destruct IH as [Hcl Hw]. split; simpl.
    + split; [by eauto|done].
    + intros _. destruct Hw as (tr1 & tr2 & w0 & -> & ? & ? & ? & Hle); [by left|].
      exists tr1, (tr2 ++ [LNcClose err])%list, w0. rewrite <- app_assoc. simpl.
      do 4 (split; [done|]). rewrite sends_app. simpl. intros Hz. apply Hle. lia.
Qed.

(** The two steps of the caller of [Close] are the body of [Close]. *)
Lemma Close_steps err w :
  halt w = Running → closer w = InWait →
  exec w [LWaitReturn; LNcClose err] =
    (λ r, set_closer (Returned r.1) r.2) <$> Close err w.
Proof.
  intros Hrun Hc. unfold Close. simpl. unfold step at 1.
  rewrite decide_True by done.
  destruct (decide (closer w = InWait)); [|done].
  unfold wg_Wait. destruct (decide (wg (mc w) = 0)) as [Hz|Hz]; simpl; [|done].
  unfold step. simpl. rewrite decide_True by done.
  by destruct (decide (PastWait = PastWait)).
Qed.

(** C5 (as the code has it). [Close] cannot leave [wg.Wait] while the
    outstanding-count is not zero, and the connection is closed only after
    that wait has returned, at count zero; at the closing the count is still
    not above zero unless [sendCommand] ran after the wait.  Once [Close]
    has returned the connection is closed (and it is closed by nothing
    else). *)
Theorem close_waits_then_closes (conn : T) tr w :
  exec (init conn) tr = Some w →
  (wg (mc w) ≠ 0 → step w LWaitReturn = None)
  ∧ (nc (mc w) = ConnClosed →
       ∃ tr1 tr2 w0,
         tr = (tr1 ++ LWaitReturn :: tr2)%list
         ∧ exec (init conn) tr1 = Some w0 ∧ wg (mc w0) = 0
         ∧ (sends tr2 = O → wg (mc w) ≤ 0))
  ∧ (∀ e, closer w = Returned e → nc (mc w) = ConnClosed)
  ∧ (nc (mc w) = ConnClosed → ∃ e, closer w = Returned e).
Proof.
  intros [Hc Hw]%close_inv_exec. split; [|split; [|split]].
  - intros Hne. unfold step, wg_Wait.
    case_decide; [|done]. case_decide; [|done]. by rewrite decide_False.
  - intros Hn. destruct Hw as (tr1 & tr2 & w0 & ? & ? & ? & ? & ?); [by right|].
    by exists tr1, tr2, w0.
  - intros e He. apply Hc. by exists e.
  - apply Hc.
Qed.

(** Once the reader loop has exited with commands outstanding, the count
    never comes down again and [Close] stays in front of its wait. *)
Lemma close_cannot_pass tr : ∀ w w',
  reader w = ReaderExited → 0 < wg (mc w) →
  closer w = NotCalled ∨ closer w = InWait →
  exec w tr = Some w' →
  reader w' = ReaderExited ∧ wg (mc w) ≤ wg (mc w')
  ∧ (closer w' = NotCalled ∨ closer w' = InWait) ∧ nc (mc w') = nc (mc w).
Proof.
  induction tr as [|l tr IH]; intros w w' Hr Hwg Hc He; simpl in He.
  { simplify_eq. repeat split; try done. }
  destruct (step w l) as [w1|] eqn:Hs; [|done].
  assert (H1 : reader w1 = ReaderExited ∧ wg (mc w) ≤ wg (mc w1)
               ∧ (closer w1 = NotCalled ∨ closer w1 = InWait)
               ∧ nc (mc w1) = nc (mc w)).
  { pose proof Hs as [_ Hl]%step_inv. destruct l.
    - subst w1. destruct (sendCommand_frame cmd w)
        as (En & _ & _ & _ & Er & Ec & [(_ & _ & Ew) | (_ & _ & Ew)]);
        rewrite Er, Ec, En, Ew; repeat split; try done; lia.
    - destruct Hl as [Hr' _]. congruence.
    - apply go_send_frame in Hl as (-> & -> & -> & _). done.
    - apply go_close_frame in Hl as (-> & -> & -> & _). done.
    - destruct Hl as [_ ->]. simpl. repeat split; try done. by right.
    - destruct Hl as (_ & Hz & _). lia.
    - destruct Hl as [Hp _]. destruct Hc; congruence. }
  destruct H1 as (Hr1 & Hw1 & Hc1 & Hn1).
  destruct (IH w1 w' Hr1 ltac:(lia) Hc1 He) as (? & ? & ? & ?).
  repeat split; try done; [lia|congruence].
Qed.

(** C6 (as the code has it). When the peer closes the connection while a
    command is outstanding, the reader loop exits without logging or changing
    anything else; from then on the count stays positive, so a call of
    [Close] never gets past its wait: it does not return and the connection
    is not closed. *)
Theorem close_hangs_after_end_of_stream dbt w :
  halt w = Running → reader w = ReaderRunning →
  0 < wg (mc w) → closer w = NotCalled ∨ closer w = InWait →
  step w (LRead dbt (Some EOF)) = Some (set_reader ReaderExited w)
  ∧ ∀ tr w', exec (set_reader ReaderExited w) tr = Some w' →
      (∀ e, closer w' ≠ Returned e) ∧ closer w' ≠ PastWait
      ∧ nc (mc w') = nc (mc w) ∧ 0 < wg (mc w').
Proof.
  intros Hrun Hr Hwg Hc. split.
  { unfold step. by rewrite !decide_True by done. }
  intros tr w' He.
  destruct (close_cannot_pass tr (set_reader ReaderExited w) w')
    as (_ & Hle & Hc' & Hn); try done.
  simpl in *. repeat split; try done; try lia.
  - intros e. destruct Hc'; congruence.
  - destruct Hc'; congruence.
Qed.

End Properties.

(** * Further properties of the client *)

Section More.

Context {T : Type} {transport : Transport T} {R : Type} {source : Source R}
        {parser : Parser}.

Implicit Types (w : World T R) (cmd dbt : bytes) (tr : list label).

(** ** What a pass of the reader loop and a goroutine step do to the
       goroutines *)

Lemma iteration_cases dbt rerr w :
  let w' := iteration dbt rerr w in
  (gos w' = gos w ∧ wg (mc w') = wg (mc w))
  ∨ (∃ m ch,
       rerr = None
       ∧ (GetString dbt "event").2 = Some KeyPathNotFoundError
       ∧ GetInt dbt "request_id" = (m, None)
       ∧ i2c (mc w) !! uint32 m = Some ch
       ∧ gos w' = (gos w ++ [mkGo ch dbt AtSend])%list
       ∧ wg (mc w') = wg (mc w) - 1).
Proof.
  unfold iteration. destruct rerr as [err|].
  { left. case_decide; simpl; done. }
  destruct (GetString dbt "event") as [ename [e|]] eqn:Hev; simpl; [|by left].
  case_decide; simpl; [|by left]. subst e.
  destruct (GetInt dbt "request_id") as [msgID [e2|]] eqn:Hid; simpl; [by left|].
  destruct (i2c (mc w) !! uint32 msgID) as [ch|] eqn:Hch; simpl; [|by left].
  right. exists msgID, ch. unfold wg_Done.
  match goal with |- context [wg_Add (-1) ?x] =>
    destruct (wg_Add_fields (-1) x) as (-> & _ & -> & _) end.
  simpl. repeat split; try done.
Qed.

Lemma go_send_inv g w w' :
  go_send g w = Some w' →
  ∃ ch msg c,
    gos w !! g = Some (mkGo ch msg AtSend) ∧ heap w !! ch = Some c
    ∧ ((closed c = true ∧ gos w' = gos w ∧ heap w' = heap w)
       ∨ (closed c = false
          ∧ gos w' = <[g := mkGo ch msg AtClose]> (gos w)
          ∧ heap w' = <[ch := mkChannel (received c ++ [msg]) false]> (heap w))).
Proof.
  unfold go_send. intros Hs.
  destruct (gos w !! g) as [[ch msg []]|] eqn:Hg; try done.
  destruct (heap w !! ch) as [c|] eqn:Hc; try done.
  exists ch, msg, c. destruct (closed c); simplify_eq; simpl; eauto 10.
Qed.

Lemma go_close_inv g w w' :
  go_close g w = Some w' →
  ∃ ch msg c,
    gos w !! g = Some (mkGo ch msg AtClose) ∧ heap w !! ch = Some c
    ∧ ((closed c = true ∧ gos w' = gos w ∧ heap w' = heap w)
       ∨ (closed c = false
          ∧ gos w' = <[g := mkGo ch msg Finished]> (gos w)
          ∧ heap w' = <[ch := mkChannel (received c) true]> (heap w))).
Proof.
  unfold go_close. intros Hs.
  destruct (gos w !! g) as [[ch msg []]|] eqn:Hg; try done.
  destruct (heap w !! ch) as [c|] eqn:Hc; try done.
  exists ch, msg, c. destruct (closed c); simplify_eq; simpl; eauto 10.
Qed.

Lemma deliveries_insert (l : list goroutine) g ch msg pc pc' :
  l !! g = Some (mkGo ch msg pc) →
  (λ x, (g_ch x, g_msg x)) <$> <[g := mkGo ch msg pc']> l
  = (λ x, (g_ch x, g_msg x)) <$> l.
Proof.
  intros Hg. rewrite list_fmap_insert. simpl.
  apply list_insert_id. by rewrite list_lookup_fmap, Hg.
Qed.

Lemma go_send_deliveries g w w' :
  go_send g w = Some w' → deliveries w' = deliveries w.
Proof.
  unfold deliveries.
  intros (ch & msg & c & Hg & _ & [(_ & -> & _) | (_ & -> & _)])%go_send_inv;
    [done|]. by eapply deliveries_insert.
Qed.

Lemma go_close_deliveries g w w' :
  go_close g w = Some w' → deliveries w' = deliveries w.
Proof.
  unfold deliveries.
  intros (ch & msg & c & Hg & _ & [(_ & -> & _) | (_ & -> & _)])%go_close_inv;
    [done|]. by eapply deliveries_insert.
Qed.

Lemma deliveries_length w : length (deliveries w) = length (gos w).
Proof. unfold deliveries. apply length_fmap. Qed.

(** ** The outstanding-count *)

Lemma count_step w l w' :
  step w l = Some w' →
  wg (mc w) = Z.of_nat (length (heap w)) - Z.of_nat (length (gos w)) →
  wg (mc w') = Z.of_nat (length (heap w')) - Z.of_nat (length (gos w')).
Proof.
  intros [_ Hl]%step_inv Hcount. destruct l.
  - subst w'. destruct (sendCommand_frame cmd w)
      as (_ & _ & -> & _ & _ & _ & [(_ & -> & ->) | (_ & -> & ->)]); [done|].
    rewrite length_app. simpl. lia.
  - destruct Hl as [_ ->].
    destruct (iteration_frame dbt rerr w) as (_ & _ & _ & _ & -> & _).
    destruct (iteration_cases dbt rerr w)
      as [(-> & ->) | (m & ch & _ & _ & _ & _ & -> & ->)]; [done|].
    rewrite length_app. simpl. lia.
  - pose proof (go_send_deliveries _ _ _ Hl) as Hd.
    apply (f_equal length) in Hd. rewrite !deliveries_length in Hd.
    apply go_send_frame in Hl as (-> & _ & _ & ->). lia.
  - pose proof (go_close_deliveries _ _ _ Hl) as Hd.
    apply (f_equal length) in Hd. rewrite !deliveries_length in Hd.
    apply go_close_frame in Hl as (-> & _ & _ & ->). lia.
  - by destruct Hl as [_ ->].
  - by destruct Hl as (_ & _ & ->).
  - by destruct Hl as [_ ->].
Qed.

Lemma nonneg_step w l w' :
  step w l = Some w' →
  (halt w = Running → 0 ≤ wg (mc w)) →
  halt w' = Running → 0 ≤ wg (mc w').
Proof.
  intros Hs Hpos Hrun'. pose proof Hs as [Hrun Hl]%step_inv.
  specialize (Hpos Hrun). destruct l.
  - subst w'. destruct (sendCommand_frame cmd w)
      as (_ & _ & _ & _ & _ & _ & [(_ & _ & ->) | (_ & _ & ->)]); lia.
  - destruct Hl as [_ ->].
    destruct (iteration_frame dbt rerr w) as (_ & _ & _ & _ & _ & _ & [->|[-> Hh]]);
      [done|].
    destruct (decide (wg (mc w) ≤ 0)) as [Hle|]; [|lia]. by apply Hh in Hle.
  - by apply go_send_frame in Hl as (-> & _).
  - by apply go_close_frame in Hl as (-> & _).
  - by destruct Hl as [_ ->].
  - by destruct Hl as (_ & _ & ->).
  - by destruct Hl as [_ ->].
Qed.

(** X1. However a client is used, its outstanding-count is the number of
    channels made by successful [sendCommand] calls minus the number of
    responses the reader loop has matched; and while the process runs the
    count is not negative. *)
Theorem count_is_sent_minus_matched (conn : T) tr w :
  exec (init conn) tr = Some w →
  wg (mc w) = Z.of_nat (length (heap w)) - Z.of_nat (length (gos w))
  ∧ (halt w = Running → 0 ≤ wg (mc w)).
Proof.
  revert w. induction tr as [|l tr IH] using rev_ind; intros w He.
  { simpl in He. simplify_eq. simpl. split; [done|lia]. }
  apply exec_snoc in He as (w1 & He & Hs). destruct (IH _ He) as [Hc Hp].
  split; [by eapply count_step|by eapply nonneg_step].
Qed.

(** ** The size of the table *)

Lemma table_size_step w l w' k :
  table_inv w k → step w l = Some w' →
  (size (i2c (mc w)) ≤ length (heap w))%nat →
  (size (i2c (mc w')) ≤ length (heap w'))%nat
  ∧ (NoDup (draws (NewSource 0) (k + sends [l])) →
     size (i2c (mc w)) = length (heap w) →
     size (i2c (mc w')) = length (heap w')).
Proof.
  intros Hinv [_ Hl]%step_inv Hle. destruct l; simpl; rewrite ?Nat.add_0_r.
  - subst w'. destruct (sendCommand_frame cmd w)
      as (_ & _ & _ & _ & _ & _ & [(-> & -> & _) | (-> & -> & _)]); [done|].
    rewrite length_app. simpl. split.
    + destruct (i2c (mc w) !! next_id w) as [ch|] eqn:Hlk.
      * rewrite map_size_insert_Some by done. lia.
      * rewrite map_size_insert_None by done. lia.
    + rewrite Nat.add_1_r. intros [_ Hfresh]%NoDup_draws_succ Heq.
      rewrite map_size_insert_None; [lia|].
      destruct (i2c (mc w) !! next_id w) as [ch|] eqn:Hlk; [|done].
      exfalso. apply Hfresh. destruct Hinv as [Hrd _ _ Hdom _].
      replace (nth_id (NewSource 0) k) with (next_id w).
      * by eapply Hdom.
      * unfold next_id, nth_id. by rewrite Hrd.
  - destruct Hl as [_ ->].
    by destruct (iteration_frame dbt rerr w) as (_ & _ & -> & _ & -> & _).
  - by apply go_send_frame in Hl as (-> & _ & _ & ->).
  - by apply go_close_frame in Hl as (-> & _ & _ & ->).
  - by destruct Hl as [_ ->].
  - by destruct Hl as (_ & _ & ->).
  - by destruct Hl as [_ ->].
Qed.

Lemma NoDup_draws_le (r : R) k k' :
  (k ≤ k')%nat → NoDup (draws r k') → NoDup (draws r k).
Proof.
  induction 1 as [|k' _ IH]; [done|].
  intros [Hnd _]%NoDup_draws_succ. by apply IH.
Qed.

(** X2. The table never holds more entries than [sendCommand] has made channels;
    when the identifiers drawn so far are pairwise distinct it holds exactly
    one entry per channel made. *)
Theorem table_size_bounded (conn : T) tr w :
  exec (init conn) tr = Some w →
  (size (i2c (mc w)) ≤ length (heap w))%nat
  ∧ (NoDup (draws (NewSource 0) (sends tr)) →
     size (i2c (mc w)) = length (heap w)).
Proof.
  revert w. induction tr as [|l tr IH] using rev_ind; intros w He.
  { simpl in He. simplify_eq. simpl. split; [|done]. by rewrite map_size_empty. }
  apply exec_snoc in He as (w1 & He & Hs). destruct (IH _ He) as [Hle Heq].
  pose proof (table_inv_exec _ _ _ _ (table_inv_init conn) He) as Hinv.
  simpl in Hinv.
  destruct (table_size_step _ _ _ _ Hinv Hs Hle) as [Hle' Heq'].
  split; [done|]. rewrite sends_app. intros Hnd. apply Heq'; [done|].
  apply Heq. eapply NoDup_draws_le; [|done]. lia.
Qed.

(** ** Which lines reach which channel *)

Lemma delivery_of_goroutine w g ch msg pc :
  gos w !! g = Some (mkGo ch msg pc) → (ch, msg) ∈ deliveries w.
Proof.
  intros Hg. unfold deliveries. apply list_elem_of_fmap.
  exists (mkGo ch msg pc). split; [done|]. by eapply list_elem_of_lookup_2.
Qed.

(** Every delivery goroutine carries a line that the reader loop matched, and
    every line received on a channel came from a goroutine for that
    channel. *)
Record route_inv (w : World T R) (k : nat) : Prop := mkRouteInv {
  ro_go : ∀ ch msg, (ch, msg) ∈ deliveries w →
    (GetString msg "event").2 = Some KeyPathNotFoundError
    ∧ ∃ m, GetInt msg "request_id" = (m, None)
        ∧ is_Some (i2c (mc w) !! uint32 m)
        ∧ (NoDup (draws (NewSource 0) k) → i2c (mc w) !! uint32 m = Some ch);
  ro_recv : ∀ ch c msg,
    heap w !! ch = Some c → msg ∈ received c → (ch, msg) ∈ deliveries w
}.

Lemma route_inv_frame w w' k :
  route_inv w k →
  i2c (mc w') = i2c (mc w) → deliveries w' = deliveries w →
  (∀ ch c msg, heap w' !! ch = Some c → msg ∈ received c →
     (ch, msg) ∈ deliveries w) →
  route_inv w' k.
Proof.
  intros [Hgo Hrecv] Ei Ed Hh. split; rewrite ?Ei, ?Ed; done.
Qed.

Lemma route_inv_step w l w' k :
  table_inv w k → route_inv w k → step w l = Some w' →
  route_inv w' (k + sends [l]).
Proof.
  intros Htab Hro [_ Hl]%step_inv. pose proof Hro as [Hgo Hrecv].
  destruct l; simpl; rewrite ?Nat.add_0_r.
  - (* sendCommand *)
    subst w'. rewrite Nat.add_1_r.
    destruct (sendCommand_frame cmd w)
      as (_ & _ & Eg & _ & _ & _ & [(Ei & Eh & _) | (Ei & Eh & _)]).
    + split; unfold deliveries; rewrite ?Eg, ?Ei, ?Eh; [|done].
      intros ch msg Hin. destruct (Hgo ch msg Hin) as (Hev & m & Hm & Hs & Hnd).
      split; [done|]. exists m. do 2 (split; [done|]).
      intros [Hk _]%NoDup_draws_succ. by apply Hnd.
    + destruct Htab as [Hrd _ _ Hdom _].
      assert (Hid : next_id w = nth_id (NewSource 0) k).
      { unfold next_id, nth_id. by rewrite Hrd. }
      split; unfold deliveries; rewrite ?Eg, ?Ei, ?Eh.
      * intros ch msg Hin. destruct (Hgo ch msg Hin) as (Hev & m & Hm & Hs & Hnd).
        split; [done|]. exists m. split; [done|]. split.
        { rewrite lookup_insert. by case_decide. }
        intros [Hk Hfresh]%NoDup_draws_succ.
        rewrite lookup_insert_ne; [by apply Hnd|].
        intros Heq. apply Hfresh. destruct Hs as [ch0 Hch0].
        rewrite <- Hid, Heq. by eapply Hdom.
      * intros ch c msg Hc Hin.
        destruct (decide (ch < length (heap w))%nat) as [Hlt|Hge].
        { rewrite lookup_app_l in Hc by done. by eapply Hrecv. }
        rewrite lookup_app_r in Hc by lia.
        destruct (ch - length (heap w))%nat; simpl in Hc; [|done].
        simplify_eq. simpl in Hin. by apply elem_of_nil in Hin.
  - (* a pass of the reader loop *)
    destruct Hl as [_ ->].
    destruct (iteration_frame dbt rerr w) as (_ & _ & Ei & _ & Eh & _).
    destruct (iteration_cases dbt rerr w)
      as [(Eg & _) | (m & ch0 & _ & Hev & Hm & Hch0 & Eg & _)].
    + eapply route_inv_frame; eauto.
      * unfold deliveries. by rewrite Eg.
      * by rewrite Eh.
    + split; unfold deliveries; rewrite ?Ei, ?Eh, Eg, fmap_app; simpl.
      * intros ch msg [Hin | [= -> ->]%list_elem_of_singleton]%elem_of_app.
        { by apply Hgo. }
        split; [done|]. exists m. eauto.
      * intros ch c msg Hc Hin. apply elem_of_app. left. by eapply Hrecv.
  - (* ch <- msg *)
    pose proof (go_send_deliveries _ _ _ Hl) as Ed.
    pose proof Hl as (Emc & _)%go_send_frame.
    apply go_send_inv in Hl
      as (ch0 & msg0 & c0 & Hg & Hc0 & [(_ & _ & Eh) | (_ & _ & Eh)]).
    + eapply route_inv_frame; eauto; [by rewrite Emc|by rewrite Eh].
    + eapply route_inv_frame; eauto; [by rewrite Emc|]. rewrite Eh.
      intros ch c msg Hc Hin.
      destruct (decide (ch = ch0)) as [->|Hne].
      * rewrite list_lookup_insert_eq in Hc by by eapply lookup_lt_Some.
        simplify_eq. simpl in Hin.
        apply elem_of_app in Hin as [Hin | ->%list_elem_of_singleton].
        { by eapply Hrecv. }
        by eapply delivery_of_goroutine.
      * rewrite list_lookup_insert_ne in Hc by done. by eapply Hrecv.
  - (* close(ch) *)
    pose proof (go_close_deliveries _ _ _ Hl) as Ed.
    pose proof Hl as (Emc & _)%go_close_frame.
    apply go_close_inv in Hl
      as (ch0 & msg0 & c0 & Hg & Hc0 & [(_ & _ & Eh) | (_ & _ & Eh)]).
    + eapply route_inv_frame; eauto; [by rewrite Emc|by rewrite Eh].
    + eapply route_inv_frame; eauto; [by rewrite Emc|]. rewrite Eh.
      intros ch c msg Hc Hin.
      destruct (decide (ch = ch0)) as [->|Hne].
      * rewrite list_lookup_insert_eq in Hc by by eapply lookup_lt_Some.
        simplify_eq. simpl in Hin. by eapply Hrecv.
      * rewrite list_lookup_insert_ne in Hc by done. by eapply Hrecv.
  - destruct Hl as [_ ->]. by eapply route_inv_frame.
  - destruct Hl as (_ & _ & ->). by eapply route_inv_frame.
  - destruct Hl as [_ ->]. by eapply route_inv_frame.
Qed.

Lemma route_inv_exec (conn : T) tr w :
  exec (init conn) tr = Some w → route_inv w (sends tr).
Proof.
  revert w. induction tr as [|l tr IH] using rev_ind; intros w He.
  { simpl in He. simplify_eq. split; simpl.
    - intros ch msg Hin. by apply elem_of_nil in Hin.
    - intros ch c msg Hc. by rewrite lookup_nil in Hc. }
  apply exec_snoc in He as (w1 & He & Hs). rewrite sends_app.
  eapply route_inv_step; [|by apply IH|done].
  by apply (table_inv_exec _ _ _ _ (table_inv_init conn) He).
Qed.

(** X3. Whatever the order of sends, responses and deliveries, a line received
    on a channel is a line without event name whose [request_id] is in the
    table; and as long as the identifiers drawn are pairwise distinct, that
    [request_id] is the one the channel is stored under: no caller gets
    another command's response, and no notification reaches a channel. *)
Theorem received_lines_match_their_channel (conn : T) tr w ch c msg :
  exec (init conn) tr = Some w →
  heap w !! ch = Some c → msg ∈ received c →
  (GetString msg "event").2 = Some KeyPathNotFoundError
  ∧ ∃ m, GetInt msg "request_id" = (m, None)
      ∧ is_Some (i2c (mc w) !! uint32 m)
      ∧ (NoDup (draws (NewSource 0) (sends tr)) →
         i2c (mc w) !! uint32 m = Some ch).
Proof.
  intros [Hgo Hrecv]%route_inv_exec Hc Hin. by eapply Hgo, Hrecv.
Qed.

(** ** A channel is closed after its line was received *)

Record chan_inv (w : World T R) : Prop := mkChanInv {
  ch_past : ∀ g ch msg pc,
    gos w !! g = Some (mkGo ch msg pc) → pc ≠ AtSend →
    ∃ c, heap w !! ch = Some c ∧ msg ∈ received c;
  ch_closed : ∀ ch c,
    heap w !! ch = Some c → closed c = true →
    ∃ g msg, gos w !! g = Some (mkGo ch msg Finished)
}.

Lemma chan_inv_frame w w' :
  chan_inv w → gos w' = gos w → heap w' = heap w → chan_inv w'.
Proof. intros [Hp Hc] Eg Eh. split; rewrite ?Eg, ?Eh; done. Qed.

Lemma chan_inv_step w l w' :
  chan_inv w → step w l = Some w' → chan_inv w'.
Proof.
  intros Hinv [_ Hl]%step_inv. pose proof Hinv as [Hp Hc]. destruct l.
  - (* sendCommand *)
    subst w'. destruct (sendCommand_frame cmd w)
      as (_ & _ & Eg & _ & _ & _ & [(_ & Eh & _) | (_ & Eh & _)]).
    { by eapply chan_inv_frame. }
    split; rewrite ?Eg, ?Eh.
    + intros g ch msg pc Hg Hpc. destruct (Hp _ _ _ _ Hg Hpc) as (c & Hch & Hin).
      exists c. split; [|done]. by apply lookup_app_l_Some.
    + intros ch c Hch Hcl.
      destruct (decide (ch < length (heap w))%nat) as [Hlt|Hge].
      { rewrite lookup_app_l in Hch by done. by eapply Hc. }
      rewrite lookup_app_r in Hch by lia.
      destruct (ch - length (heap w))%nat; simpl in Hch; [|done]. by simplify_eq.
  - (* a pass of the reader loop *)
    destruct Hl as [_ ->].
    destruct (iteration_frame dbt rerr w) as (_ & _ & _ & _ & Eh & _).
    destruct (iteration_cases dbt rerr w)
      as [(Eg & _) | (m & ch0 & _ & _ & _ & _ & Eg & _)].
    { by eapply chan_inv_frame. }
    split; rewrite ?Eg, ?Eh.
    + intros g ch msg pc Hg Hpc.
      destruct (decide (g < length (gos w))%nat) as [Hlt|Hge].
      { rewrite lookup_app_l in Hg by done. by eapply Hp. }
      rewrite lookup_app_r in Hg by lia.
      destruct (g - length (gos w))%nat; simpl in Hg; [|done]. by simplify_eq.
    + intros ch c Hch Hcl. destruct (Hc _ _ Hch Hcl) as (g & msg & Hg).
      exists g, msg. by apply lookup_app_l_Some.
  - (* ch <- msg *)
    apply go_send_inv in Hl
      as (ch0 & msg0 & c0 & Hg0 & Hc0 & [(_ & Eg & Eh) | (Hopen & Eg & Eh)]).
    { by eapply chan_inv_frame. }
    assert (Hg0l : (g < length (gos w))%nat) by by eapply lookup_lt_Some.
    assert (Hc0l : (ch0 < length (heap w))%nat) by by eapply lookup_lt_Some.
    split; rewrite ?Eg, ?Eh.
    + intros g' ch msg pc Hg Hpc.
      assert (∃ pc', gos w !! g' = Some (mkGo ch msg pc')
                     ∧ (pc' = AtSend → g' = g ∧ ch = ch0 ∧ msg = msg0))
        as (pc' & Hg' & Hsame).
      { destruct (decide (g' = g)) as [->|Hne].
        - rewrite list_lookup_insert_eq in Hg by done. simplify_eq. eauto.
        - rewrite list_lookup_insert_ne in Hg by done. exists pc.
          split; [done|]. by intros ->. }
      destruct (decide (ch = ch0)) as [->|Hne].
      * rewrite list_lookup_insert_eq by done. eexists. split; [done|]. simpl.
        apply elem_of_app. destruct (decide (pc' = AtSend)) as [Hat|Hat].
        { destruct (Hsame Hat) as (_ & _ & ->). right.
          by apply list_elem_of_singleton. }
        left. destruct (Hp _ _ _ _ Hg' Hat) as (c & Hch & Hin). by simplify_eq.
      * rewrite list_lookup_insert_ne by done.
        destruct (decide (pc' = AtSend)) as [Hat|Hat].
        { by destruct (Hsame Hat) as (_ & ? & _). }
        by eapply Hp.
    + intros ch c Hch Hcl.
      destruct (decide (ch = ch0)) as [->|Hne].
      { rewrite list_lookup_insert_eq in Hch by done. by simplify_eq. }
      rewrite list_lookup_insert_ne in Hch by done.
      destruct (Hc _ _ Hch Hcl) as (g' & msg & Hg'). exists g', msg.
      rewrite list_lookup_insert_ne; [done|]. intros ->. by simplify_eq.
  - (* close(ch) *)
    apply go_close_inv in Hl
      as (ch0 & msg0 & c0 & Hg0 & Hc0 & [(_ & Eg & Eh) | (Hopen & Eg & Eh)]).
    { by eapply chan_inv_frame. }
    assert (Hg0l : (g < length (gos w))%nat) by by eapply lookup_lt_Some.
    assert (Hc0l : (ch0 < length (heap w))%nat) by by eapply lookup_lt_Some.
    split; rewrite ?Eg, ?Eh.
    + intros g' ch msg pc Hg Hpc.
      assert (∃ pc', gos w !! g' = Some (mkGo ch msg pc') ∧ pc' ≠ AtSend)
        as (pc' & Hg' & Hat).
      { destruct (decide (g' = g)) as [->|Hne].
        - rewrite list_lookup_insert_eq in Hg by done. simplify_eq. eauto.
        - rewrite list_lookup_insert_ne in Hg by done. eauto. }
      destruct (Hp _ _ _ _ Hg' Hat) as (c & Hch & Hin).
      destruct (decide (ch = ch0)) as [->|Hne].
      * rewrite list_lookup_insert_eq by done. eexists. split; [done|].
        by simplify_eq.
      * rewrite list_lookup_insert_ne by done. eauto.
    + intros ch c Hch Hcl.
      destruct (decide (ch = ch0)) as [->|Hne].
      { exists g, msg0. by rewrite list_lookup_insert_eq. }
      rewrite list_lookup_insert_ne in Hch by done.
      destruct (Hc _ _ Hch Hcl) as (g' & msg & Hg'). exists g', msg.
      rewrite list_lookup_insert_ne; [done|]. intros ->. by simplify_eq.
  - destruct Hl as [_ ->]. by eapply chan_inv_frame.
  - destruct Hl as (_ & _ & ->). by eapply chan_inv_frame.
  - destruct Hl as [_ ->]. by eapply chan_inv_frame.
Qed.

Lemma chan_inv_exec (conn : T) tr w :
  exec (init conn) tr = Some w → chan_inv w.
Proof.
  revert w. induction tr as [|l tr IH] using rev_ind; intros w He.
  { simpl in He. simplify_eq. split; simpl.
    - intros g ch msg pc Hg. by rewrite lookup_nil in Hg.
    - intros ch c Hc. by rewrite lookup_nil in Hc. }
  apply exec_snoc in He as (w1 & He & Hs). eapply chan_inv_step; eauto.
Qed.

(** X4. A channel that has been closed has had a line received on it before: a
    caller that waits on the channel returned by [sendCommand] is never woken
    by the closing alone. *)
Theorem closed_channel_has_delivered (conn : T) tr w ch c :
  exec (init conn) tr = Some w →
  heap w !! ch = Some c → closed c = true →
  ∃ g msg, gos w !! g = Some (mkGo ch msg Finished) ∧ msg ∈ received c.
Proof.
  intros [Hp Hc]%chan_inv_exec Hch Hcl.
  destruct (Hc _ _ Hch Hcl) as (g & msg & Hg). exists g, msg. split; [done|].
  destruct (Hp _ _ _ _ Hg) as (c' & Hch' & Hin); [done|]. by simplify_eq.
Qed.

(** ** Close with nothing outstanding *)

(** X11. With no command outstanding a call of [Close] goes through: it returns
    what [nc.Close] returned and leaves the connection closed, with the
    table, the count and the generator as they were. *)
Theorem close_returns_when_nothing_outstanding err w :
  halt w = Running → closer w = NotCalled → wg (mc w) = 0 →
  ∃ w', exec w [LCloseCall; LWaitReturn; LNcClose err] = Some w'
    ∧ closer w' = Returned err ∧ nc (mc w') = ConnClosed
    ∧ i2c (mc w') = i2c (mc w) ∧ wg (mc w') = 0 ∧ rd (mc w') = rd (mc w)
    ∧ halt w' = Running.
Proof.
  intros Hrun Hc Hz. eexists. split.
  - simpl. unfold step at 1. rewrite decide_True by done.
    rewrite decide_True by done.
    rewrite (Close_steps err (set_closer InWait w)) by done.
    unfold Close, wg_Wait. simpl. by rewrite decide_True by done.
  - simpl. done.
Qed.

(** ** A command and its response, end to end *)

Lemma sendCommand_halt cmd w :
  0 ≤ wg (mc w) → halt (sendCommand cmd w).2 = halt w.
Proof.
  intros Hpos. rewrite sendCommand_unfold. cbv zeta.
  destruct (Write _ _) as [[e|] t]; simpl; [done|].
  destruct (Flush t) as [[e|] t']; simpl; [done|].
  match goal with |- context [wg_Add 1 ?x] =>
    destruct (wg_Add_fields 1 x) as (_ & _ & _ & _ & _ & _ & ->) end.
  simpl. by destruct (Z.ltb_spec (wg (mc w) + 1) 0); [lia|].
Qed.

Lemma delivery_run g ch msg c w :
  halt w = Running →
  gos w !! g = Some (mkGo ch msg AtSend) →
  heap w !! ch = Some c → closed c = false →
  ∃ w', exec w [LGoSend g; LGoClose g] = Some w'
    ∧ heap w' = <[ch := mkChannel (received c ++ [msg]) true]> (heap w)
    ∧ gos w' = <[g := mkGo ch msg Finished]> (gos w)
    ∧ mc w' = mc w ∧ halt w' = Running.
Proof.
  intros Hrun Hg Hc Hopen.
  destruct (go_send_ok g ch msg c w Hg Hc Hopen) as (w2 & Hs & Hg2 & Hh2 & Hm2 & Hr2).
  assert (Hgl : (g < length (gos w))%nat) by by eapply lookup_lt_Some.
  assert (Hcl : (ch < length (heap w))%nat) by by eapply lookup_lt_Some.
  assert (Hg2' : gos w2 !! g = Some (mkGo ch msg AtClose)).
  { rewrite Hg2. by apply list_lookup_insert_eq. }
  assert (Hc2 : heap w2 !! ch = Some (mkChannel (received c ++ [msg]) false)).
  { rewrite Hh2. by apply list_lookup_insert_eq. }
  destruct (go_close_ok g ch msg _ w2 Hg2' Hc2 eq_refl) as (w3 & Hs3 & Hg3 & Hh3 & Hm3 & Hr3).
  exists w3. split.
  { simpl. unfold step. rewrite decide_True by done. rewrite Hs.
    rewrite decide_True by (by rewrite Hr2). by rewrite Hs3. }
  rewrite Hh3, Hh2, Hg3, Hg2, Hm3, Hm2, Hr3, Hr2, !list_insert_insert_eq. done.
Qed.

(** The world after a response to the identifier of the next [sendCommand]
    has been read. *)
Lemma send_then_reply cmd dbt m w :
  halt w = Running → reader w = ReaderRunning → 0 ≤ wg (mc w) →
  (Write (ncmd cmd (next_id w)) (rw (mc w))).1 = None →
  (Flush (Write (ncmd cmd (next_id w)) (rw (mc w))).2).1 = None →
  (GetString dbt "event").2 = Some KeyPathNotFoundError →
  GetInt dbt "request_id" = (m, None) → uint32 m = next_id w →
  ∃ w2, exec w [LSend cmd; LRead dbt None] = Some w2
    ∧ halt w2 = Running ∧ reader w2 = ReaderRunning
    ∧ wg (mc w2) = wg (mc w)
    ∧ i2c (mc w2) !! next_id w = Some (length (heap w))
    ∧ heap w2 = (heap w ++ [make_chan])%list
    ∧ gos w2 = (gos w ++ [mkGo (length (heap w)) dbt AtSend])%list.
Proof.
  intros Hrun Hrd Hpos Hw Hf Hev Hid Hm.
  destruct (sendCommand_success cmd w Hw Hf) as (_ & _ & Eh & _ & _ & Hl & Ewg).
  destruct (sendCommand_frame cmd w) as (_ & _ & Eg & _ & Er & _ & _).
  pose proof (sendCommand_halt cmd w Hpos) as Ehalt.
  set (w1 := (sendCommand cmd w).2) in *.
  exists (iteration dbt None w1). split.
  { simpl. unfold step. rewrite decide_True by done. fold w1.
    rewrite decide_True by congruence. by rewrite decide_True by congruence. }
  rewrite (iteration_response _ _ _ Hev Hid), Hm, Hl. unfold wg_Done.
  match goal with |- context [wg_Add (-1) ?x] =>
    destruct (wg_Add_fields (-1) x) as (-> & -> & -> & _ & -> & _ & ->) end.
  simpl. rewrite Ewg, Eh, Eg, Er, Ehalt, Hl.
  destruct (Z.ltb_spec (wg (mc w) + 1 + -1) 0); [lia|].
  repeat split; try done. lia.
Qed.

(** X5. A command that is sent and then answered by a line that echoes its
    identifier: the channel [sendCommand] returned receives exactly that
    line and is then closed, and the outstanding-count is back where it
    was. *)
Theorem reply_reaches_the_sender cmd dbt m w :
  halt w = Running → reader w = ReaderRunning → 0 ≤ wg (mc w) →
  (Write (ncmd cmd (next_id w)) (rw (mc w))).1 = None →
  (Flush (Write (ncmd cmd (next_id w)) (rw (mc w))).2).1 = None →
  (GetString dbt "event").2 = Some KeyPathNotFoundError →
  GetInt dbt "request_id" = (m, None) → uint32 m = next_id w →
  let ch := length (heap w) in
  let g := length (gos w) in
  ∃ w', exec w [LSend cmd; LRead dbt None; LGoSend g; LGoClose g] = Some w'
    ∧ (sendCommand cmd w).1 = (Some ch, None)
    ∧ heap w' !! ch = Some (mkChannel [dbt] true)
    ∧ wg (mc w') = wg (mc w) ∧ halt w' = Running.
Proof.
  intros Hrun Hrd Hpos Hw Hf Hev Hid Hm ch g.
  destruct (send_then_reply cmd dbt m w) as (w2 & He & Hrun2 & _ & Ewg & _ & Eh & Eg);
    try done.
  destruct (delivery_run g ch dbt make_chan w2) as (w' & He' & Eh' & _ & Em' & Hrun');
    try done.
  { rewrite Eg. unfold g. by rewrite lookup_app_r, Nat.sub_diag by lia. }
  { rewrite Eh. unfold ch. by rewrite lookup_app_r, Nat.sub_diag by lia. }
  exists w'. split.
  { change [LSend cmd; LRead dbt None; LGoSend g; LGoClose g]
      with ([LSend cmd; LRead dbt None] ++ [LGoSend g; LGoClose g])%list.
    by rewrite exec_app, He. }
  split; [by destruct (sendCommand_success cmd w Hw Hf) as (? & _)|].
  rewrite Eh', Em', Eh. split; [|done].
  rewrite list_lookup_insert_eq; [done|]. rewrite length_app. simpl. unfold ch. lia.
Qed.

(** X6. When nothing else is outstanding, a response that the peer sends twice
    stops the process: the entry is still in the table at the second
    reading, and [wg.Done] takes the count below zero. *)
Theorem repeated_reply_panics cmd dbt m w :
  halt w = Running → reader w = ReaderRunning → wg (mc w) = 0 →
  (Write (ncmd cmd (next_id w)) (rw (mc w))).1 = None →
  (Flush (Write (ncmd cmd (next_id w)) (rw (mc w))).2).1 = None →
  (GetString dbt "event").2 = Some KeyPathNotFoundError →
  GetInt dbt "request_id" = (m, None) → uint32 m = next_id w →
  ∃ w', exec w [LSend cmd; LRead dbt None; LRead dbt None] = Some w'
    ∧ halt w' = Panicked "sync: negative WaitGroup counter".
Proof.
  intros Hrun Hrd Hz Hw Hf Hev Hid Hm.
  destruct (send_then_reply cmd dbt m w)
    as (w2 & He & Hrun2 & Hrd2 & Ewg & Hl & _); try done; [lia|].
  exists (iteration dbt None w2). split.
  { change [LSend cmd; LRead dbt None; LRead dbt None]
      with ([LSend cmd; LRead dbt None] ++ [LRead dbt None])%list.
    rewrite exec_app, He. simpl. unfold step.
    rewrite decide_True by done. by rewrite decide_True by done. }
  rewrite (iteration_response _ _ _ Hev Hid), Hm, Hl. unfold wg_Done.
  match goal with |- context [wg_Add (-1) ?x] =>
    destruct (wg_Add_fields (-1) x) as (_ & _ & _ & _ & _ & _ & ->) end.
  simpl. rewrite Ewg, Hz. done.
Qed.

(** ** Lines the reader loop cannot use *)

(** X7. The identifier of a response is taken modulo [2^32]: a line whose
    [request_id] differs from a stored identifier by a multiple of [2^32]
    (negative values included) is matched to that identifier's channel. *)
Theorem request_id_wraps_to_32_bits dbt id k ch w :
  (GetString dbt "event").2 = Some KeyPathNotFoundError →
  GetInt dbt "request_id" = (id + k * 2 ^ 32, None) →
  0 ≤ id < 2 ^ 32 →
  i2c (mc w) !! id = Some ch →
  gos (iteration dbt None w) = (gos w ++ [mkGo ch dbt AtSend])%list
  ∧ wg (mc (iteration dbt None w)) = wg (mc w) - 1.
Proof.
  intros Hev Hid Hrange Hl.
  rewrite (iteration_response _ _ _ Hev Hid). unfold uint32.
  rewrite Z_mod_plus_full, Z.mod_small, Hl by done. unfold wg_Done.
  match goal with |- context [wg_Add (-1) ?x] =>
    destruct (wg_Add_fields (-1) x) as (-> & _ & -> & _) end.
  done.
Qed.

(** X8. A line that has no event name and no usable [request_id], or whose event
    name cannot be extracted, stops the process through [log.Fatal] with the
    parser's error text; the client is left as it was. *)
Theorem unusable_line_is_fatal dbt err w :
  ((GetString dbt "event").2 = Some err ∧ err ≠ KeyPathNotFoundError)
  ∨ ((GetString dbt "event").2 = Some KeyPathNotFoundError
     ∧ (GetInt dbt "request_id").2 = Some err) →
  iteration dbt None w = log_Fatal (Error err) w
  ∧ halt (iteration dbt None w) = Exited (Error err)
  ∧ logs (iteration dbt None w) = (logs w ++ [Error err])%list
  ∧ mc (iteration dbt None w) = mc w
  ∧ (∀ reads, inputMonitor reads (iteration dbt None w) = iteration dbt None w).
Proof.
  intros Hcase.
  assert (E : iteration dbt None w = log_Fatal (Error err) w).
  { unfold iteration. destruct (GetString dbt "event") as [ename oe].
    destruct Hcase as [[Hev Hne] | [Hev Hid]]; simpl in Hev; subst oe.
    - by rewrite decide_False.
    - rewrite decide_True by done.
      destruct (GetInt dbt "request_id") as [m oe]. simpl in Hid. by subst oe. }
  rewrite E. do 4 (split; [done|]).
  intros reads. by apply inputMonitor_halted.
Qed.

Lemma inputMonitor_stopped reads w :
  ¬ (halt w = Running ∧ reader w = ReaderRunning) → inputMonitor reads w = w.
Proof.
  intros Hn. destruct reads as [|[dbt rerr] rest]; simpl; [done|].
  by rewrite decide_False.
Qed.

(** X9. A failed read ends the loop: whatever came with the error is dropped and
    nothing after it is read.  [io.EOF] is silent, any other error is logged
    once; the client itself is untouched and the process keeps running. *)
Theorem read_error_ends_the_loop dbt err rest w :
  halt w = Running → reader w = ReaderRunning →
  let w' := inputMonitor ((dbt, Some err) :: rest) w in
  reader w' = ReaderExited ∧ halt w' = Running
  ∧ mc w' = mc w ∧ heap w' = heap w ∧ gos w' = gos w
  ∧ logs w' = (if decide (err = EOF) then logs w else logs w ++ [Error err])%list.
Proof.
  intros Hrun Hrd. simpl. rewrite decide_True by done.
  rewrite inputMonitor_stopped.
  - simpl. case_decide; simpl; done.
  - simpl. by intros [_ ?].
Qed.


(** The loop as a function and the loop as steps of the process agree: when
    the process can take the read steps of a stream, [inputMonitor] ends in
    the same world. *)
Lemma inputMonitor_follows_read_steps reads w w' :
  exec w ((λ r, LRead r.1 r.2) <$> reads) = Some w' →
  inputMonitor reads w = w'.
Proof.
  revert w. induction reads as [|[dbt rerr] rest IH]; intros w He; simpl in *.
  { by simplify_eq. }
  destruct (step w (LRead dbt rerr)) as [w1|] eqn:Hs; [|done].
  apply step_inv in Hs as (Hrun & Hrd & ->).
  rewrite decide_True by done. by apply IH.
Qed.

End More.

(** ** The lines written to the peer *)

Lemma append_nil (b : string) : "" ++ b = b.
Proof. reflexivity. Qed.

Lemma append_cons (c : ascii) (a b : string) : String c a ++ b = String c (a ++ b).
Proof. reflexivity. Qed.

Lemma append_assoc (a b c : string) : (a ++ b) ++ c = a ++ (b ++ c).
Proof.
  induction a as [|x a IH]; [done|]. rewrite !append_cons. by f_equal.
Qed.

Lemma append_inj_l (p x y : string) : p ++ x = p ++ y → x = y.
Proof.
  induction p as [|c p IH]; [done|]. rewrite !append_cons.
  intros [= H]. by apply IH.
Qed.

Lemma newlines_app (a b : string) : newlines (a ++ b) = (newlines a + newlines b)%nat.
Proof.
  induction a as [|c a IH]; [done|]. rewrite append_cons. simpl.
  rewrite IH. lia.
Qed.

Lemma last_char_app_single (a : string) (c : ascii) :
  last_char (a ++ String c EmptyString) = Some c.
Proof.
  induction a as [|x a IH]; [done|]. rewrite append_cons. simpl.
  rewrite IH. destruct a; [done|]. by rewrite append_cons.
Qed.

Lemma all_digits_of_uint (d : Decimal.uint) :
  all_digits (NilEmpty.string_of_uint d) = true.
Proof. induction d; simpl; try done; by rewrite IHd. Qed.

Lemma all_digits_decimal (n : Z) : all_digits (decimal n) = true.
Proof.
  unfold decimal, NilZero.string_of_uint.
  destruct (N.to_uint (Z.to_N n)) eqn:E; try done;
    rewrite <- E; apply all_digits_of_uint.
Qed.

Lemma digits_have_no_newline (s : string) : all_digits s = true → newlines s = O.
Proof.
  induction s as [|c s IH]; simpl; [done|].
  intros [Hc Hs]%andb_prop. rewrite (IH Hs).
  destruct (Ascii.eqb_spec c newline) as [->|]; [done|done].
Qed.

Lemma digits_then_other (x y t t' : string) (c : ascii) :
  all_digits x = true → all_digits y = true → isdigit c = false →
  x ++ String c t = y ++ String c t' → x = y.
Proof.
  revert y. induction x as [|a x IH]; intros [|b y];
    rewrite ?append_nil, ?append_cons; simpl; try done.
  - intros _ [Hb _]%andb_prop Hc [= <- _]. congruence.
  - intros [Ha _]%andb_prop _ Hc [= -> _]. congruence.
  - intros [_ Hx]%andb_prop [_ Hy]%andb_prop Hc [= -> H].
    f_equal. by eapply IH.
Qed.

Lemma of_uint_of_string (d : Decimal.uint) :
  N.of_uint (default Decimal.Nil (NilEmpty.uint_of_string (NilZero.string_of_uint d)))
  = N.of_uint d.
Proof.
  destruct d; [done|..]; unfold NilZero.string_of_uint; by rewrite NilEmpty.usu.
Qed.

Lemma read_decimal_decimal (n : Z) : 0 ≤ n → read_decimal (decimal n) = n.
Proof.
  intros Hn. unfold read_decimal, decimal.
  rewrite of_uint_of_string, DecimalN.Unsigned.of_to. lia.
Qed.

(** X13. Every command goes out as exactly one line: the line built by
    [sendCommand] ends with a newline and has no other newline than those of
    its template, and none of the eleven templates has one. *)
Theorem command_is_one_line :
  (∀ cmd id, newlines (ncmd cmd id) = (newlines cmd + 1)%nat
             ∧ last_char (ncmd cmd id) = Some newline)
  ∧ Forall (λ cmd, ∀ id, newlines (ncmd cmd id) = 1%nat) templates.
Proof.
  assert (H : ∀ cmd id, newlines (ncmd cmd id) = (newlines cmd + 1)%nat
                        ∧ last_char (ncmd cmd id) = Some newline).
  { intros cmd id. split.
    - unfold ncmd.
      rewrite !newlines_app, (digits_have_no_newline _ (all_digits_decimal id)).
      simpl. lia.
    - assert (E : ncmd cmd id
                  = (cmd ++ dq ", 'request_id': " ++ decimal id ++ "}")
                      ++ String newline "").
      { unfold ncmd. by rewrite !append_assoc. }
      rewrite E. apply last_char_app_single. }
  split; [exact H|]. unfold templates.
  repeat (constructor; [intros id; rewrite (proj1 (H _ id)); reflexivity|]).
  constructor.
Qed.

(** X14. Different identifiers give different lines: the peer's echo of
    [request_id] tells the commands of one template apart. *)
Theorem distinct_identifiers_distinct_lines cmd id1 id2 :
  0 ≤ id1 → 0 ≤ id2 → id1 ≠ id2 → ncmd cmd id1 ≠ ncmd cmd id2.
Proof.
  intros H1 H2 Hne Heq. apply Hne. unfold ncmd in Heq.
  apply append_inj_l, append_inj_l in Heq.
  apply digits_then_other in Heq; try apply all_digits_decimal; [|done].
  rewrite <- (read_decimal_decimal id1), <- (read_decimal_decimal id2) by done.
  by rewrite Heq.
Qed.

(** * The scenarios, run on the stand-ins *)

Import Sim.

(** Scenario 1: pause-toggle under identifier 7, answered by the peer. *)
Example scenario_pause_toggle :
  wire (rw (mc pause_pending)) = ncmd JPC_PAUSE_TOGGLE_ 7
  ∧ (PauseToggle (client [7])).1 = (Some 0%nat, None)
  ∧ heap <$> exec pause_pending [LRead reply7 None; LGoSend 0%nat; LGoClose 0%nat]
    = Some [mkChannel [reply7] true].
Proof. repeat split; vm_compute; reflexivity. Qed.

(** Scenario 2: identifiers 3 and 9, answered in reverse order. *)
Example scenario_reverse_order :
  heap <$> exec (client [3; 9])
    [LSend JPC_PLAYLIST_NEXT; LSend JPC_PLAYLIST_PREV;
     LRead reply9 None; LRead reply3 None;
     LGoSend 0%nat; LGoClose 0%nat; LGoSend 1%nat; LGoClose 1%nat]
  = Some [mkChannel [reply3] true; mkChannel [reply9] true].
Proof. vm_compute; reflexivity. Qed.

(** Scenario 3: a notification with nothing pending. *)
Example scenario_notification :
  iteration event_pause None (client []) =
    log_print (event_message "pause" event_pause) (client []).
Proof. vm_compute; reflexivity. Qed.

(** * Instances of the theorems and contradicting runs *)

Lemma sendCommand_failure_witness :
  (Flush (Write (ncmd JPC_OSC_ON (next_id (client_flush_broken [7])))
            pipe_flush_broken).2).1 = Some (Err "flush: broken pipe")
  ∧ (sendCommand JPC_OSC_ON (client_flush_broken [7])).1
    = (None, Some (Err "flush: broken pipe"))
  ∧ i2c (mc (sendCommand JPC_OSC_ON (client_flush_broken [7])).2) = ∅
  ∧ wg (mc (sendCommand JPC_OSC_ON (client_flush_broken [7])).2) = 0.
Proof.
  split; [reflexivity|].
  destruct (sendCommand_failure_registers_nothing JPC_OSC_ON
              (client_flush_broken [7]) (Err "flush: broken pipe"))
    as (Hres & Hi2c & _ & Hwg & _).
  - right. split; reflexivity.
  - split; [exact Hres|]. split; [exact Hi2c|exact Hwg].
Defined.

Lemma sendCommand_success_witness :
  (sendCommand JPC_PAUSE_TOGGLE_ (client [7])).1 = (Some 0%nat, None)
  ∧ i2c (mc (sendCommand JPC_PAUSE_TOGGLE_ (client [7])).2) !! 7 = Some 0%nat
  ∧ wg (mc (sendCommand JPC_PAUSE_TOGGLE_ (client [7])).2) = 0 + 1.
Proof.
  destruct (sendCommand_success_registers JPC_PAUSE_TOGGLE_ (client [7]))
    as (Hres & _ & _ & _ & _ & Hl & Hwg); [reflexivity|reflexivity|].
  split; [exact Hres|]. split; [exact Hl|exact Hwg].
Defined.

Lemma notification_witness :
  GetString event_pause "event" = ("pause", None)
  ∧ i2c (mc (iteration event_pause None pause_pending)) = i2c (mc pause_pending)
  ∧ wg (mc (iteration event_pause None pause_pending)) = wg (mc pause_pending)
  ∧ heap (iteration event_pause None pause_pending) = heap pause_pending.
Proof.
  split; [reflexivity|].
  destruct (notification_touches_no_command event_pause "pause" pause_pending)
    as (_ & Hi & Hw & Hh & _); [reflexivity|].
  split; [exact Hi|]. split; [exact Hw|exact Hh].
Defined.

(** Against C1: after the answer to identifier 7 has been handled, 7 is
    still in the table. *)
Lemma response_entry_not_removed :
  (GetString reply7 "event").2 = Some KeyPathNotFoundError
  ∧ GetInt reply7 "request_id" = (7, None)
  ∧ i2c (mc pause_pending) !! uint32 7 = Some 0%nat
  ∧ i2c (mc (iteration reply7 None pause_pending)) !! uint32 7 ≠ None.
Proof. repeat split; try (vm_compute; reflexivity). vm_compute. discriminate. Qed.

Lemma response_witness :
  (GetString reply7 "event").2 = Some KeyPathNotFoundError
  ∧ GetInt reply7 "request_id" = (7, None)
  ∧ i2c (mc pause_pending) !! uint32 7 = Some 0%nat
  ∧ i2c (mc (iteration reply7 None pause_pending)) !! uint32 7 = Some 0%nat
  ∧ wg (mc (iteration reply7 None pause_pending)) = wg (mc pause_pending) - 1
  ∧ ∃ w3, exec (iteration reply7 None pause_pending) [LGoSend 0%nat; LGoClose 0%nat]
          = Some w3
        ∧ heap w3 = [mkChannel [reply7] true].
Proof.
  split; [reflexivity|]. split; [reflexivity|]. split; [reflexivity|].
  destruct (response_is_delivered_entry_kept reply7 7 0%nat pause_pending)
    as (_ & Hwg & _ & Hl & _ & _ & Hgo); [reflexivity|reflexivity|reflexivity|].
  split; [exact Hl|]. split; [exact Hwg|].
  destruct (Hgo eq_refl eq_refl make_chan) as (w3 & He & Hh & _);
    [reflexivity|reflexivity|].
  exists w3. split; [exact He|exact Hh].
Defined.

(** Against C7: an answer to identifier 7 arrives at a client that has sent
    nothing.  The process exits; the notification that follows is never
    read. *)
Lemma unknown_identifier_halts :
  (GetString reply7 "event").2 = Some KeyPathNotFoundError
  ∧ GetInt reply7 "request_id" = (7, None)
  ∧ i2c (mc (client [])) !! uint32 7 = None
  ∧ halt (inputMonitor [(reply7, None); (event_pause, None)] (client []))
    = Exited "We haven't seen this ID before!"
  ∧ logs (inputMonitor [(reply7, None); (event_pause, None)] (client []))
    = ["We haven't seen this ID before!"].
Proof. repeat split; vm_compute; reflexivity. Qed.

Lemma unknown_identifier_witness :
  (GetString reply7 "event").2 = Some KeyPathNotFoundError
  ∧ GetInt reply7 "request_id" = (7, None)
  ∧ i2c (mc (client [3])) !! uint32 7 = None
  ∧ halt (iteration reply7 None (client [3])) = Exited "We haven't seen this ID before!"
  ∧ ∀ l, step (iteration reply7 None (client [3])) l = None.
Proof.
  split; [reflexivity|]. split; [reflexivity|]. split; [reflexivity|].
  destruct (unknown_identifier_is_fatal reply7 7 (client [3]))
    as (Hh & _ & _ & _ & _ & _ & Hs); [reflexivity|reflexivity|reflexivity|].
  split; [exact Hh|exact Hs].
Defined.

Lemma identifiers_witness :
  (∃ w1 w2,
     exec (client [7; 3]) [LSend JPC_PAUSE_TOGGLE_; LRead reply7 None] = Some w1
     ∧ exec (client_flush_broken [7; 3]) [LRead event_pause None; LSend JPC_OSC_ON]
       = Some w2
     ∧ next_id w1 = next_id w2)
  ∧ sends [LSend JPC_PAUSE_TOGGLE_; LRead reply7 None]
    = sends [LRead event_pause None; LSend JPC_OSC_ON].
Proof.
  split; [|reflexivity].
  eexists _, _. split; [vm_compute; reflexivity|]. split; [vm_compute; reflexivity|].
  eapply (identifiers_are_predictable pipe_ok pipe_flush_broken
            [LSend JPC_PAUSE_TOGGLE_; LRead reply7 None]
            [LRead event_pause None; LSend JPC_OSC_ON]);
    [vm_compute; reflexivity | vm_compute; reflexivity | reflexivity].
Defined.

(** Against C4.  With the draws 7, 7: the second [sendCommand] takes the
    entry of the first, whose command awaits its response and is in the table
    no more.  With the draw 7 and its answer handled: 7 is still in the
    table, for a command that awaits nothing. *)
Lemma table_is_not_exact :
  (∃ w, exec (client [7; 7]) [LSend JPC_PAUSE_TOGGLE_; LSend JPC_OSC_ON] = Some w
     ∧ awaiting w 0%nat ∧ ¬ registered w 0%nat ∧ ¬ table_exact w)
  ∧ (∃ w, exec (client [7]) [LSend JPC_PAUSE_TOGGLE_; LRead reply7 None] = Some w
       ∧ i2c (mc w) !! 7 = Some 0%nat ∧ ¬ awaiting w 0%nat ∧ ¬ table_exact w).
Proof.
  split.
  - eexists. split; [vm_compute; reflexivity|].
    match goal with |- awaiting ?x _ ∧ _ => set (w := x) end.
    assert (Ha : awaiting w 0%nat) by (apply (bool_decide_unpack _); vm_compute; exact I).
    assert (Hr : ¬ registered w 0%nat) by (apply (bool_decide_unpack _); vm_compute; exact I).
    split; [exact Ha|]. split; [exact Hr|].
    intros (_ & Hall & _). apply Hr, Hall, Ha.
  - eexists. split; [vm_compute; reflexivity|].
    match goal with |- _ ∧ ¬ awaiting ?x _ ∧ _ => set (w := x) end.
    assert (Hn : ¬ awaiting w 0%nat) by (apply (bool_decide_unpack _); vm_compute; exact I).
    split; [vm_compute; reflexivity|]. split; [exact Hn|].
    intros (Hex & _). apply Hn, (Hex 7). vm_compute; reflexivity.
Qed.

Lemma table_witness :
  ∃ w, exec (client [3; 9]) [LSend JPC_PLAYLIST_NEXT; LSend JPC_PLAYLIST_PREV;
                             LRead reply9 None] = Some w
    ∧ NoDup (draws (NewSource (R := replay_state [3; 9]) 0) 2)
    ∧ registered w 0%nat ∧ registered w 1%nat.
Proof.
  eexists. split; [vm_compute; reflexivity|].
  assert (Hnd : NoDup (draws (NewSource (R := replay_state [3; 9]) 0) 2))
    by (apply (bool_decide_unpack _); vm_compute; exact I).
  split; [exact Hnd|].
  match goal with |- registered ?x _ ∧ _ => set (w := x) end.
  assert (He : exec (client [3; 9])
                 [LSend JPC_PLAYLIST_NEXT; LSend JPC_PLAYLIST_PREV; LRead reply9 None]
               = Some w) by (vm_compute; reflexivity).
  destruct (table_along_a_run pipe_ok _ w He) as (_ & _ & _ & Hall & _).
  split; apply (Hall Hnd); unfold w; simpl; lia.
Defined.

(** Against C5.  First run: the answer to identifier 7 is read, [Close] is
    called and returns, and only then is the answer handed to its channel.
    Second run: [sendCommand] runs between the wait and the closing, and the
    connection is closed with one command outstanding. *)
Lemma close_is_not_the_end :
  (∃ w w',
     exec (client [7])
       [LSend JPC_PAUSE_TOGGLE_; LRead reply7 None;
        LCloseCall; LWaitReturn; LNcClose None] = Some w
     ∧ closer w = Returned None ∧ nc (mc w) = ConnClosed
     ∧ heap w = [make_chan]
     ∧ step w (LGoSend 0%nat) = Some w'
     ∧ heap w' = [mkChannel [reply7] false])
  ∧ (∃ w,
       exec (client [7])
         [LCloseCall; LWaitReturn; LSend JPC_PAUSE_TOGGLE_; LNcClose None] = Some w
       ∧ nc (mc w) = ConnClosed ∧ wg (mc w) = 1).
Proof.
  split.
  - eexists _, _. split; [vm_compute; reflexivity|].
    do 3 (split; [vm_compute; reflexivity|]).
    split; vm_compute; reflexivity.
  - eexists. split; [vm_compute; reflexivity|].
    split; vm_compute; reflexivity.
Qed.

Lemma close_witness :
  ∃ w, exec (client [7])
         [LSend JPC_PAUSE_TOGGLE_; LRead reply7 None;
          LCloseCall; LWaitReturn; LNcClose None] = Some w
    ∧ nc (mc w) = ConnClosed
    ∧ ∃ tr1 tr2 w0,
        [LSend JPC_PAUSE_TOGGLE_; LRead reply7 None;
         LCloseCall; LWaitReturn; LNcClose None] = (tr1 ++ LWaitReturn :: tr2)%list
        ∧ exec (client [7]) tr1 = Some w0 ∧ wg (mc w0) = 0.
Proof.
  eexists. split; [vm_compute; reflexivity|].
  match goal with |- nc (mc ?x) = _ ∧ _ => set (w := x) end.
  assert (He : exec (client [7])
                 [LSend JPC_PAUSE_TOGGLE_; LRead reply7 None;
                  LCloseCall; LWaitReturn; LNcClose None]
               = Some w) by (vm_compute; reflexivity).
  destruct (close_waits_then_closes pipe_ok _ w He) as (_ & Hclosed & _ & _).
  split; [reflexivity|].
  destruct Hclosed as (tr1 & tr2 & w0 & Htr & He0 & Hz & _); [reflexivity|].
  exists tr1, tr2, w0. split; [exact Htr|]. split; [exact He0|exact Hz].
Defined.

(** Against C6.  Pause-toggle is sent, the peer closes the connection, the
    reader loop exits, [Close] is called: however the process goes on,
    [Close] does not return. *)
Lemma close_never_returns_after_eof :
  ¬ ∃ tr w e,
      exec (client [7])
        ([LSend JPC_PAUSE_TOGGLE_; LRead "" (Some EOF); LCloseCall] ++ tr)%list = Some w
      ∧ closer w = Returned e.
Proof.
  intros (tr & w & e & He & Hc).
  rewrite exec_app in He.
  destruct (exec (client [7]) [LSend JPC_PAUSE_TOGGLE_; LRead "" (Some EOF); LCloseCall])
    as [w3|] eqn:E3; [|done].
  simpl in He.
  assert (Hr : reader w3 = ReaderExited).
  { assert (H : reader <$> exec (client [7])
                  [LSend JPC_PAUSE_TOGGLE_; LRead "" (Some EOF); LCloseCall]
                = Some ReaderExited) by (vm_compute; reflexivity).
    rewrite E3 in H. by simplify_eq/=. }
  assert (Hwg : wg (mc w3) = 1).
  { assert (H : (λ w, wg (mc w)) <$> exec (client [7])
                  [LSend JPC_PAUSE_TOGGLE_; LRead "" (Some EOF); LCloseCall]
                = Some 1) by (vm_compute; reflexivity).
    rewrite E3 in H. by simplify_eq/=. }
  assert (Hcl : closer w3 = InWait).
  { assert (H : closer <$> exec (client [7])
                  [LSend JPC_PAUSE_TOGGLE_; LRead "" (Some EOF); LCloseCall]
                = Some InWait) by (vm_compute; reflexivity).
    rewrite E3 in H. by simplify_eq/=. }
  destruct (close_cannot_pass tr w3 w Hr ltac:(lia) (or_intror Hcl) He)
    as (_ & _ & [?|?] & _); congruence.
Qed.

Lemma close_hangs_witness :
  halt pause_pending = Running ∧ reader pause_pending = ReaderRunning
  ∧ 0 < wg (mc pause_pending) ∧ closer pause_pending = NotCalled
  ∧ step pause_pending (LRead "" (Some EOF)) = Some (set_reader ReaderExited pause_pending)
  ∧ ∀ w', exec (set_reader ReaderExited pause_pending) [LCloseCall; LWaitReturn] = Some w' →
      closer w' ≠ PastWait.
Proof.
  split; [reflexivity|]. split; [reflexivity|].
  split; [reflexivity|]. split; [reflexivity|].
  destruct (close_hangs_after_end_of_stream "" pause_pending)
    as (Hs & Hstuck); [reflexivity|reflexivity|reflexivity|left; reflexivity|].
  split; [exact Hs|].
  intros w' He. destruct (Hstuck _ _ He) as (_ & Hp & _). exact Hp.
Defined.

(** * Instances of the further properties *)

Lemma count_witness :
  ∃ w, exec (client [3; 9])
         [LSend JPC_PLAYLIST_NEXT; LSend JPC_PLAYLIST_PREV; LRead reply9 None] = Some w
    ∧ wg (mc w) = Z.of_nat (length (heap w)) - Z.of_nat (length (gos w))
    ∧ wg (mc w) = 1.
Proof.
  name_run w He.
  destruct (count_is_sent_minus_matched pipe_ok _ w He) as [Hc _].
  split; [exact Hc|reflexivity].
Defined.

Lemma table_size_witness :
  ∃ w, exec (client [7; 7]) [LSend JPC_PAUSE_TOGGLE_; LSend JPC_OSC_ON] = Some w
    ∧ (size (i2c (mc w)) ≤ length (heap w))%nat
    ∧ size (i2c (mc w)) = 1%nat ∧ length (heap w) = 2%nat.
Proof.
  name_run w He.
  destruct (table_size_bounded pipe_ok _ w He) as [Hle _].
  split; [exact Hle|]. split; vm_compute; reflexivity.
Defined.

Lemma received_lines_witness :
  ∃ w, exec (client [3; 9])
         [LSend JPC_PLAYLIST_NEXT; LSend JPC_PLAYLIST_PREV;
          LRead reply9 None; LRead reply3 None;
          LGoSend 0%nat; LGoClose 0%nat; LGoSend 1%nat; LGoClose 1%nat] = Some w
    ∧ heap w !! 1%nat = Some (mkChannel [reply9] true)
    ∧ reply9 ∈ [reply9]
    ∧ NoDup (draws (NewSource (R := replay_state [3; 9]) 0) 2)
    ∧ ∃ m, GetInt reply9 "request_id" = (m, None)
        ∧ i2c (mc w) !! uint32 m = Some 1%nat.
Proof.
  name_run w He.
  assert (Hc : heap w !! 1%nat = Some (mkChannel [reply9] true)) by reflexivity.
  assert (Hin : reply9 ∈ received (mkChannel [reply9] true))
    by (apply list_elem_of_singleton; reflexivity).
  assert (Hnd : NoDup (draws (NewSource (R := replay_state [3; 9]) 0) 2))
    by (apply (bool_decide_unpack _); vm_compute; exact I).
  split; [exact Hc|]. split; [exact Hin|]. split; [exact Hnd|].
  destruct (received_lines_match_their_channel pipe_ok _ w _ _ _ He Hc Hin)
    as (_ & m & Hm & _ & Hown).
  exists m. split; [exact Hm|exact (Hown Hnd)].
Defined.

Lemma closed_channel_witness :
  ∃ w, exec (client [7])
         [LSend JPC_PAUSE_TOGGLE_; LRead reply7 None; LGoSend 0%nat; LGoClose 0%nat]
       = Some w
    ∧ heap w !! 0%nat = Some (mkChannel [reply7] true)
    ∧ ∃ g msg, gos w !! g = Some (mkGo 0%nat msg Finished) ∧ msg ∈ [reply7].
Proof.
  name_run w He.
  assert (Hc : heap w !! 0%nat = Some (mkChannel [reply7] true)) by reflexivity.
  split; [exact Hc|].
  exact (closed_channel_has_delivered pipe_ok _ w _ _ He Hc eq_refl).
Defined.

Lemma close_returns_witness :
  halt (client [7]) = Running ∧ closer (client [7]) = NotCalled
  ∧ wg (mc (client [7])) = 0
  ∧ ∃ w', exec (client [7]) [LCloseCall; LWaitReturn; LNcClose (Some (Err "closed pipe"))]
          = Some w'
        ∧ closer w' = Returned (Some (Err "closed pipe")).
Proof.
  split; [reflexivity|]. split; [reflexivity|]. split; [reflexivity|].
  destruct (close_returns_when_nothing_outstanding (Some (Err "closed pipe")) (client [7]))
    as (w' & He & Hc & _); [reflexivity|reflexivity|reflexivity|].
  exists w'. split; [exact He|exact Hc].
Defined.

Lemma reply_reaches_witness :
  (GetString reply7 "event").2 = Some KeyPathNotFoundError
  ∧ GetInt reply7 "request_id" = (7, None)
  ∧ uint32 7 = next_id (client [7])
  ∧ ∃ w', exec (client [7])
            [LSend JPC_PAUSE_TOGGLE_; LRead reply7 None; LGoSend 0%nat; LGoClose 0%nat]
          = Some w'
        ∧ heap w' !! 0%nat = Some (mkChannel [reply7] true)
        ∧ wg (mc w') = 0.
Proof.
  split; [reflexivity|]. split; [reflexivity|]. split; [reflexivity|].
  destruct (reply_reaches_the_sender JPC_PAUSE_TOGGLE_ reply7 7 (client [7]))
    as (w' & He & _ & Hh & Hwg & _);
    [reflexivity|reflexivity|reflexivity|reflexivity|reflexivity
    |reflexivity|reflexivity|reflexivity|].
  exists w'. split; [exact He|]. split; [exact Hh|exact Hwg].
Defined.

Lemma repeated_reply_witness :
  wg (mc (client [7])) = 0
  ∧ ∃ w', exec (client [7])
            [LSend JPC_PAUSE_TOGGLE_; LRead reply7 None; LRead reply7 None] = Some w'
        ∧ halt w' = Panicked "sync: negative WaitGroup counter".
Proof.
  split; [reflexivity|].
  exact (repeated_reply_panics JPC_PAUSE_TOGGLE_ reply7 7 (client [7])
           eq_refl eq_refl eq_refl eq_refl eq_refl eq_refl eq_refl eq_refl).
Defined.

Lemma request_id_wraps_witness :
  GetInt reply7_wrapped "request_id" = (7 + 1 * 2 ^ 32, None)
  ∧ i2c (mc pause_pending) !! 7 = Some 0%nat
  ∧ gos (iteration reply7_wrapped None pause_pending)
    = [mkGo 0%nat reply7_wrapped AtSend].
Proof.
  split; [reflexivity|]. split; [reflexivity|].
  destruct (request_id_wraps_to_32_bits reply7_wrapped 7 1 0%nat pause_pending)
    as [Hg _]; [reflexivity|reflexivity|lia|reflexivity|].
  exact Hg.
Defined.

Lemma unusable_line_witness :
  (GetString "{}" "event").2 = Some KeyPathNotFoundError
  ∧ (GetInt "{}" "request_id").2 = Some KeyPathNotFoundError
  ∧ halt (iteration "{}" None pause_pending) = Exited "Key path not found"
  ∧ mc (iteration "{}" None pause_pending) = mc pause_pending.
Proof.
  split; [reflexivity|]. split; [reflexivity|].
  destruct (unusable_line_is_fatal "{}" KeyPathNotFoundError pause_pending)
    as (_ & Hh & _ & Hm & _); [right; split; reflexivity|].
  split; [exact Hh|exact Hm].
Defined.

Lemma read_error_witness :
  halt pause_pending = Running ∧ reader pause_pending = ReaderRunning
  ∧ logs (inputMonitor [("", Some (Err "pipe broken")); (reply7, None)] pause_pending)
    = ["pipe broken"]
  ∧ gos (inputMonitor [("", Some (Err "pipe broken")); (reply7, None)] pause_pending)
    = [].
Proof.
  split; [reflexivity|]. split; [reflexivity|].
  destruct (read_error_ends_the_loop "" (Err "pipe broken") [(reply7, None)]
              pause_pending eq_refl eq_refl)
    as (_ & _ & _ & _ & Hg & Hl).
  split; [exact Hl|exact Hg].
Defined.

Lemma inputMonitor_steps_witness :
  ∃ w, exec pause_pending [LRead event_pause None; LRead reply7 None] = Some w
    ∧ inputMonitor [(event_pause, None); (reply7, None)] pause_pending = w.
Proof.
  name_run w He. 
  exact (inputMonitor_follows_read_steps
           [(event_pause, None); (reply7, None)] pause_pending w He).
Defined.


Lemma distinct_lines_witness :
  0 ≤ 3 ∧ 0 ≤ 9 ∧ 3 ≠ 9 ∧ ncmd JPC_PLAYLIST_NEXT 3 ≠ ncmd JPC_PLAYLIST_NEXT 9.
Proof.
  assert (H3 : 0 ≤ 3) by lia. assert (H9 : 0 ≤ 9) by lia.
  assert (Hne : 3 ≠ 9) by lia.
  split; [exact H3|]. split; [exact H9|]. split; [exact Hne|].
  exact (distinct_identifiers_distinct_lines JPC_PLAYLIST_NEXT 3 9 H3 H9 Hne).
Defined.
